(** * debreviate.js: the trie, its traverser and the replacement engine

    A shallow embedding of [src/debreviate.js].  Trie nodes are JavaScript
    objects that are mutated in place and reached through references, so they
    live in an explicit heap (a list indexed by location, [new TrieNode()]
    appends).  [Trie.prototype.root] is a single cell shared by every [Trie]
    instance that has no [root] property of its own.

    Strings are sequences of code units; the embedding covers ASCII text, for
    which [toLowerCase] / [toUpperCase] act on the 26 letters only and the
    case-insensitive class [[a-z0-9]] is the ASCII alphanumerics.  A result
    [None] of a fallible operation stands for an uncaught [TypeError].
    A response is modelled from its parsed cells on, as the list of their
    texts.

    The request, the debounce timer ([onInput], [main]) and [showSplash]
    only schedule or decorate the two entry points modelled here,
    [handleDataResponse] and [processInput]. *)

From Stdlib Require Import Ascii String.
From stdpp Require Import gmap strings list fin_maps.

Abbreviation str := (list ascii) (only parsing).

(** String literals of the source, as code-unit lists. *)
Definition lit (s : string) : str := list_ascii_of_string s.

(** ** Characters and the utility functions *)

Definition is_upper (c : ascii) : bool :=
  (65 <=? nat_of_ascii c) && (nat_of_ascii c <=? 90).
Definition is_lower (c : ascii) : bool :=
  (97 <=? nat_of_ascii c) && (nat_of_ascii c <=? 122).
Definition is_digit (c : ascii) : bool :=
  (48 <=? nat_of_ascii c) && (nat_of_ascii c <=? 57).
Definition is_alnum (c : ascii) : bool := is_lower c || is_upper c || is_digit c.

(** The code units below 128.  Case mapping is modelled on these only: above
    them JavaScript also folds the Latin-1 letters, and some upper-case forms
    are longer than one code unit, so a statement that depends on the case of
    a character outside [[a-z0-9]] carries an [is_ascii] hypothesis. *)
Definition is_ascii (c : ascii) : bool := nat_of_ascii c <? 128.

(** [String.prototype.toLowerCase] / [toUpperCase] on one ASCII code unit. *)
Definition char_toLowerCase (c : ascii) : ascii :=
  if is_upper c then ascii_of_nat (nat_of_ascii c + 32) else c.
Definition char_toUpperCase (c : ascii) : ascii :=
  if is_lower c then ascii_of_nat (nat_of_ascii c - 32) else c.
Definition toLowerCase (s : str) : str := char_toLowerCase <$> s.

(** [str.split('').reverse().join('')] *)
Definition reverseString (s : str) : str := reverse s.

(** [!/[a-z0-9]/i.test(char)]: no code unit of [char] is alphanumeric. *)
Definition isBoundaryCharacter (char : str) : bool :=
  negb (existsb is_alnum char).

(** ** TrieNode objects and the heap *)

(** Heap locations. *)
Abbreviation loc := nat (only parsing).

Record TrieNode := mkTrieNode {
  edges : gmap ascii loc;
  isLeaf : bool;
  data : option (list ascii)
}.

(** [new TrieNode()]: no edges, [isLeaf = false], [data = null]. *)
Definition new_TrieNode : TrieNode := mkTrieNode ∅ false None.

Definition set_edge (edge : ascii) (l : loc) (n : TrieNode) : TrieNode :=
  mkTrieNode (<[edge := l]> (edges n)) (isLeaf n) (data n).

(** [node.data = data; node.isLeaf = true] *)
Definition set_leaf (d : str) (n : TrieNode) : TrieNode :=
  mkTrieNode (edges n) true (Some d).

(** ** Trie objects

    [tries] holds, per [Trie] instance, its own [root] property if it has one;
    [proto_root] is [Trie.prototype.root]. *)
Record Store := mkStore {
  heap : list TrieNode;
  proto_root : option loc;
  tries : list (option loc)
}.

Definition empty_store : Store := mkStore [] None [].

Definition set_heap (h : list TrieNode) (σ : Store) : Store :=
  mkStore h (proto_root σ) (tries σ).

(** [new Trie()]: the constructor stores the fresh root node on
    [Trie.prototype]; the new instance gets no property of its own. *)
Definition new_Trie (σ : Store) : nat * Store :=
  (length (tries σ),
   mkStore (heap σ ++ [new_TrieNode]) (Some (length (heap σ))) (tries σ ++ [None])).

(** Reading [this.root]: the own property when present, else the prototype's. *)
Definition get_root (this : nat) (σ : Store) : option loc :=
  match tries σ !! this with
  | Some (Some r) => Some r
  | Some None => proto_root σ
  | None => None
  end.

(** The body of the [for] loop of [Trie.prototype.add], by recursion on the
    characters [value[i..]] still to insert; [i == value.length - 1] holds
    exactly when no character follows [edge]. *)
Fixpoint add_loop (currentNode : loc) (value : str) (d : str)
    (h : list TrieNode) : option (list TrieNode) :=
  match value with
  | [] => Some h
  | edge :: rest =>
      n ← h !! currentNode;
      let h1 :=
        match edges n !! edge with
        | Some _ => h
        | None => <[currentNode := set_edge edge (length h) n]> (h ++ [new_TrieNode])
        end in
      n1 ← h1 !! currentNode;
      next ← edges n1 !! edge;
      h2 ← match rest with
           | [] => node ← h1 !! next; Some (<[next := set_leaf d node]> h1)
           | _ :: _ => Some h1
           end;
      add_loop next rest d h2
  end.

Definition Trie_add (this : nat) (value d : str) (σ : Store) : option Store :=
  match get_root this σ with
  | Some currentNode =>
      h ← add_loop currentNode value d (heap σ); Some (set_heap h σ)
  | None =>
      (* [undefined.edges] throws as soon as the loop body runs *)
      match value with [] => Some σ | _ :: _ => None end
  end.

(** [this.root = new TrieNode()]: creates or overwrites the own property.
    [this] is always an existing instance. *)
Definition Trie_clear (this : nat) (σ : Store) : Store :=
  mkStore (heap σ ++ [new_TrieNode]) (proto_root σ)
          (<[this := Some (length (heap σ))]> (tries σ)).

(** ** TrieTraverser *)

Record TrieTraverser := mkTraverser { cursor_ : option loc }.

Definition new_TrieTraverser (t : nat) (σ : Store) : TrieTraverser :=
  mkTraverser (get_root t σ).

Record TraverseResult := mkResult {
  couldTraverse : bool;
  res_isLeaf : option bool;
  res_data : option (list ascii)
}.

Definition no_traverse : TraverseResult := mkResult false None None.

Definition traverse (char : ascii) (this : TrieTraverser) (h : list TrieNode)
    : option (TraverseResult * TrieTraverser) :=
  l ← cursor_ this;
  n ← h !! l;
  match edges n !! char with
  | None => Some (no_traverse, this)
  | Some l' =>
      n' ← h !! l';
      Some (mkResult true (Some (isLeaf n')) (data n'), mkTraverser (Some l'))
  end.

(** Successive [traverse] calls on one traverser, collecting the results. *)
Fixpoint traverse_all (chars : str) (this : TrieTraverser) (h : list TrieNode)
    : option (list TraverseResult) :=
  match chars with
  | [] => Some []
  | c :: cs =>
      '(r, this') ← traverse c this h;
      rs ← traverse_all cs this' h;
      Some (r :: rs)
  end.

(** ** The editable element and [processInput] *)

Record Element := mkElement {
  tagName : list ascii;
  value : list ascii;
  selectionStart : nat;
  selectionEnd : nat
}.

Definition isEditableElement (element : Element) : bool :=
  bool_decide (tagName element ∈ [lit "INPUT"; lit "TEXTAREA"]).

(** How one pass through the body of [while (true)] ends: by [break], or by
    reaching the end of the body / [continue]. *)
Inductive Ctl := Break | Continue.

(** [replacement[0].toUpperCase() + replacement.substr(1)] *)
Definition capitalize (replacement : str) : str :=
  match replacement with
  | [] => []
  | c :: rest => char_toUpperCase c :: rest
  end.

(** [nextCharPosition == 0 || isBoundaryCharacter(element.value[nextCharPosition - 1])];
    an index past the end reads [undefined], which the test turns into a
    string. *)
Definition at_word_boundary (element : Element) (nextCharPosition : nat) : bool :=
  (nextCharPosition =? 0) ||
  isBoundaryCharacter
    (match value element !! (nextCharPosition - 1) with
     | Some c => [c]
     | None => lit "undefined"
     end).

(** One pass through the loop body, after [offset--] and the test
    [nextCharPosition < 0].  A leaf always carries a string ([add] stores
    both together); a leaf without data is treated as the [TypeError] of
    [replacement.length]. *)
Definition loop_body (h : list TrieNode) (cursorPosition nextCharPosition : nat)
    (traverser : TrieTraverser) (element : Element)
    : option (Ctl * TrieTraverser * Element) :=
  char ← value element !! nextCharPosition;
  '(result, traverser') ← traverse (char_toLowerCase char) traverser h;
  if negb (couldTraverse result) then Some (Break, traverser', element)
  else if bool_decide (res_isLeaf result = Some true) then
    if at_word_boundary element nextCharPosition then
      stored ← res_data result;
      let before := take nextCharPosition (value element) in
      let replacement :=
        if negb (bool_decide (char = char_toLowerCase char)) && (0 <? length stored)
        then capitalize stored else stored in
      let after := drop cursorPosition (value element) in
      Some (Continue, traverser',
            mkElement (tagName element) (before ++ replacement ++ after)
                      (length before + length replacement)
                      (length before + length replacement))
    else Some (Continue, traverser', element)
  else Some (Continue, traverser', element).

(** The [while (true)] loop; [remaining] is [cursorPosition + offset] at the
    head of the body, so that after [offset--] the test
    [nextCharPosition < 0] succeeds exactly when [remaining = 0]. *)
Fixpoint processInput_loop (h : list TrieNode) (cursorPosition remaining : nat)
    (traverser : TrieTraverser) (element : Element) : option Element :=
  match remaining with
  | 0 => Some element
  | S nextCharPosition =>
      '(ctl, traverser', element') ←
        loop_body h cursorPosition nextCharPosition traverser element;
      match ctl with
      | Break => Some element'
      | Continue =>
          processInput_loop h cursorPosition nextCharPosition traverser' element'
      end
  end.

(** ** Globals and the main program *)

Record Page := mkPage {
  store : Store;
  trie : nat;
  console : list (list ascii);
  activeElement : option Element
}.

(** [var trie = new Trie();] on a page with nothing logged. *)
Definition initial_page (focused : option Element) : Page :=
  let '(t, σ) := new_Trie empty_store in mkPage σ t [] focused.

Definition processInput (p : Page) : option Page :=
  match activeElement p with
  | None => Some p
  | Some element =>
      if negb (isEditableElement element) then Some p
      else
        let cursorPosition := selectionStart element in
        let traverser := new_TrieTraverser (trie p) (store p) in
        element' ← processInput_loop (heap (store p)) cursorPosition
                     cursorPosition traverser element;
        Some (mkPage (store p) (trie p) (console p) (Some element'))
  end.

(** *** Plain objects used as maps ([parseData]'s [result])

    An association list in property-creation order; assignment to an
    existing key keeps its place. *)
Fixpoint obj_put (key v : str) (o : list (list ascii * list ascii))
    : list (list ascii * list ascii) :=
  match o with
  | [] => [(key, v)]
  | (k, w) :: o' => if decide (k = key) then (k, v) :: o' else (k, w) :: obj_put key v o'
  end.

(** [result[key] = v] on an object created by [{}]: assigning a string to
    [__proto__] runs the inherited setter, which ignores it. *)
Definition obj_set (key v : str) (o : list (list ascii * list ascii))
    : list (list ascii * list ascii) :=
  if decide (key = lit "__proto__") then o else obj_put key v o.

(** Array-index property names (canonical decimal numerals below [2^32 - 1])
    are enumerated first, in ascending order, by [for ... in]. *)
Definition digits_value (s : str) : N :=
  foldl (λ acc c, (10 * acc + N.of_nat (nat_of_ascii c - 48))%N) 0%N s.

Definition array_index (key : str) : option N :=
  match key with
  | [] => None
  | c :: rest =>
      if forallb is_digit key
         && (negb (bool_decide (c = "0"%char)) || bool_decide (rest = []))
         && (length key <=? 10)
         && (digits_value key <? 4294967295)%N
      then Some (digits_value key) else None
  end.

Fixpoint insert_index (i : N) (key : str) (l : list (N * list ascii))
    : list (N * list ascii) :=
  match l with
  | [] => [(i, key)]
  | (j, k) :: l' => if (i <? j)%N then (i, key) :: l else (j, k) :: insert_index i key l'
  end.

Definition for_in_keys (o : list (list ascii * list ascii)) : list (list ascii) :=
  let indexed :=
    foldr (λ kv acc, match array_index kv.1 with
                     | Some i => insert_index i kv.1 acc
                     | None => acc
                     end) [] o in
  indexed.*2 ++ filter (λ k, array_index k = None) o.*1.

Fixpoint obj_get (key : str) (o : list (list ascii * list ascii)) : option (list ascii) :=
  match o with
  | [] => None
  | (k, v) :: o' => if decide (k = key) then Some v else obj_get key o'
  end.

Definition invalid_configuration : list ascii :=
  lit "Invalid configuration, please check spreadsheet for proper format.".

(** The loop [for (i = 2; i < entry.length; i += 2)] over the cells from
    index 2 on; the length is even when it runs. *)
Fixpoint parse_pairs (cells : list (list ascii)) (result : list (list ascii * list ascii))
    : list (list ascii * list ascii) :=
  match cells with
  | k :: v :: rest => parse_pairs rest (obj_set k v result)
  | _ => result
  end.

(** [parseData]; [entry] lists the text ([content.$t]) of every cell of
    [data.feed.entry].  Returns the mapping and the extended error log. *)
Definition parseData (entry : list (list ascii)) (log : list (list ascii))
    : list (list ascii * list ascii) * list (list ascii) :=
  let numCells := length entry in
  if (numCells <? 4) || negb (numCells mod 2 =? 0)
  then ([], log ++ [invalid_configuration])
  else (parse_pairs (drop 2 entry) [], log).

(** [for (var key in data) trie.add(reverseString(key).toLowerCase(), data[key])] *)
Fixpoint add_all (t : nat) (keys : list (list ascii)) (o : list (list ascii * list ascii))
    (σ : Store) : option Store :=
  match keys with
  | [] => Some σ
  | key :: keys' =>
      d ← obj_get key o;
      σ' ← Trie_add t (toLowerCase (reverseString key)) d σ;
      add_all t keys' o σ'
  end.

(** [handleDataResponse], from the parsed response on: [entry] holds the
    strings [data.feed.entry[i].content['$t']] of a response that has them.
    [JSON.parse] and the property reads of [parseData], which throw on any
    other response, are not modelled.  [showSplash] only touches the
    document and is left out. *)
Definition handleDataResponse (entry : list (list ascii)) (p : Page) : option Page :=
  let '(o, log) := parseData entry (console p) in
  let σ1 := Trie_clear (trie p) (store p) in
  σ2 ← add_all (trie p) (for_in_keys o) o σ1;
  Some (mkPage σ2 (trie p) log (activeElement p)).

(** ** Concrete runs *)

Definition input_at (text : str) (cursor : nat) : Element :=
  mkElement (lit "INPUT") text cursor cursor.

Definition field_text (p : Page) : option (list ascii) := value <$> activeElement p.
Definition field_cursor (p : Page) : option (nat * nat) :=
  (λ e, (selectionStart e, selectionEnd e)) <$> activeElement p.

Definition sheet (pairs : list (string * string)) : list (list ascii) :=
  [lit "Abbreviation"; lit "Debreviation"]
    ++ concat ((λ kv, [lit kv.1; lit kv.2]) <$> pairs).

Definition run (pairs : list (string * string)) (text : string) (cursor : nat)
    : option Page :=
  p ← handleDataResponse (sheet pairs) (initial_page (Some (input_at (lit text) cursor)));
  processInput p.

(** The page once the sheet holding [pairs] has been loaded. *)
Definition loaded (pairs : list (string * string)) : Page :=
  default (initial_page None)
    (handleDataResponse (sheet pairs) (initial_page None)).

(** ** Paths through the heap, observations, well-formedness *)

(** [edge_of h l c l']: node [l] has an edge labelled [c] to node [l']. *)
Definition edge_of (h : list TrieNode) (l : loc) (c : ascii) (l' : loc) : Prop :=
  ∃ n, h !! l = Some n ∧ edges n !! c = Some l'.

(** The node reached from [l] along the edges labelled by [p]. *)
Fixpoint walk (h : list TrieNode) (l : loc) (p : str) : option loc :=
  match p with
  | [] => Some l
  | c :: p' => n ← h !! l; l' ← edges n !! c; walk h l' p'
  end.

(** What a traverser reports about node [l], and about the node at path [p]
    below [r]. *)
Definition content (h : list TrieNode) (l : loc)
    : option (bool * option (list ascii)) :=
  n ← h !! l; Some (isLeaf n, data n).

Definition obs (h : list TrieNode) (r : loc) (p : str)
    : option (bool * option (list ascii)) :=
  walk h r p ≫= content h.

(** Edges lead to nodes allocated later, and no node has two incoming
    edges: the heap is a forest. *)
Record wf_heap (h : list TrieNode) : Prop := mk_wf_heap {
  wf_edge_lt : ∀ l c l', edge_of h l c l' → l < l' < length h;
  wf_parent : ∀ l1 c1 l2 c2 l',
    edge_of h l1 c1 l' → edge_of h l2 c2 l' → l1 = l2 ∧ c1 = c2
}.

(** Every instance reads a root that is allocated. *)
Definition wf_store (σ : Store) : Prop :=
  wf_heap (heap σ) ∧
  ∀ t, t < length (tries σ) → ∃ r, get_root t σ = Some r ∧ r < length (heap σ).

(** The heap after [currentNode.edges[edge] = new TrieNode()]. *)
Definition attach (cur : loc) (c : ascii) (n : TrieNode) (h : list TrieNode)
    : list TrieNode :=
  <[cur := set_edge c (length h) n]> (h ++ [new_TrieNode]).

(** A sequence of [add] calls on one trie. *)
Fixpoint Trie_add_all (t : nat) (kvs : list (list ascii * list ascii)) (σ : Store)
    : option Store :=
  match kvs with
  | [] => Some σ
  | (k, v) :: kvs' => σ' ← Trie_add t k v σ; Trie_add_all t kvs' σ'
  end.

(** The page with another element focused. *)
Definition focus (element : Element) (p : Page) : Page :=
  mkPage (store p) (trie p) (console p) (Some element).

(** The two halves of one pass through the loop body of [add]: make sure the
    edge exists and follow it; then mark the node if it is the last one. *)
Definition ensure_edge (cur : loc) (c : ascii) (h : list TrieNode)
    : option (loc * list TrieNode) :=
  n ← h !! cur;
  let h1 :=
    match edges n !! c with
    | Some _ => h
    | None => attach cur c n h
    end in
  n1 ← h1 !! cur;
  next ← edges n1 !! c;
  Some (next, h1).

Definition mark_last (next : loc) (rest : str) (d : str) (h1 : list TrieNode)
    : option (list TrieNode) :=
  match rest with
  | [] => node ← h1 !! next; Some (<[next := set_leaf d node]> h1)
  | _ :: _ => Some h1
  end.

(** [p] lies strictly below [q] on the way to [q ++ rest]. *)
Definition extends (q rest p : str) : Prop :=
  ∃ x, x ≠ [] ∧ x `prefix_of` rest ∧ p = q ++ x.

(** The effect of [add(k, v)] on what is observable below the root. *)
Definition add_spec (k v : str) (f : list ascii → option (bool * option (list ascii)))
    (p : str) : option (bool * option (list ascii)) :=
  if decide (k ≠ [] ∧ p = k) then Some (true, Some v)
  else if decide (p ≠ [] ∧ p `prefix_of` k)
       then Some (default (false, None) (f p))
       else f p.

(** What is observable below a root that was just allocated. *)
Definition empty_obs (p : str) : option (bool * option (list ascii)) :=
  if decide (p = []) then Some (false, None) else None.

Definition adds_spec (kvs : list (list ascii * list ascii))
    (f : list ascii → option (bool * option (list ascii)))
    : list ascii → option (bool * option (list ascii)) :=
  foldl (λ g kv, add_spec kv.1 kv.2 g) f kvs.

(** The result object [traverse] builds from what is observable at the
    path it tries to reach. *)
Definition result_of (o : option (bool * option (list ascii))) : TraverseResult :=
  match o with
  | Some (leaf, d) => mkResult true (Some leaf) d
  | None => no_traverse
  end.

(** The results of successive [traverse] calls by a traverser standing at
    path [q], computed from the observations alone. *)
Fixpoint results (f : list ascii → option (bool * option (list ascii)))
    (q cs : str) : list TraverseResult :=
  match cs with
  | [] => []
  | c :: cs' =>
      result_of (f (q ++ [c]))
        :: results f (match f (q ++ [c]) with Some _ => q ++ [c] | None => q end) cs'
  end.

(** ** Further definitions: invariants and the glue code *)

(** A node is terminal exactly when it carries an expansion. *)
Definition node_ok (n : TrieNode) : Prop :=
  isLeaf n = true ↔ is_Some (data n).

Definition good_store (σ : Store) : Prop :=
  wf_store σ ∧ Forall node_ok (heap σ).

(** The global [trie] names an existing instance of a good store. *)
Definition good_page (p : Page) : Prop :=
  good_store (store p) ∧ trie p < length (tries (store p)).

(** The key [handleDataResponse] hands to [add]. *)
Definition normalize (key : str) : str := toLowerCase (reverseString key).

(** The result object of a [traverse] call that arrives at a leaf. *)
Definition found (v : str) : TraverseResult := mkResult true (Some true) (Some v).

(** The rows of the sheet: the cells after the title, two by two. *)
Fixpoint pairs_of (cells : list (list ascii)) : list (list ascii * list ascii) :=
  match cells with
  | k :: v :: rest => (k, v) :: pairs_of rest
  | _ => []
  end.

(** The arguments of the [add] calls of [handleDataResponse], in order. *)
Definition norm_pairs (keys : list (list ascii)) (o : list (list ascii * list ascii))
    : list (list ascii * list ascii) :=
  (λ key, (normalize key, default [] (obj_get key o))) <$> keys.

(** ** The window: activation, requests and the debounce timer *)

Definition DEFAULT_ID : list ascii :=
  lit "1wByQxdc-OPu4lAw9lZbVb0LyIK4nNQZQOktzKLai9Bc".

Definition WAIT_TIME : nat := 500.

Definition getDataUrl (id : str) : str :=
  lit "https://spreadsheets.google.com/feeds/cells/" ++ id
    ++ lit "/1/public/basic?alt=json".

(** The globals next to [trie], and what the browser keeps for the script:
    how often [addEventListener] was called for [onInput], the URLs of the
    requests sent and not yet answered, the pending timeouts set by
    [onInput] (handle and delay; their callback is [processInput]) and the
    next timeout handle.  Handles are positive and never reused.  The
    timeouts of [showSplash] only touch the splash and are not listed. *)
Record Window := mkWindow {
  page : Page;
  firstRun : bool;
  processTimeout : nat;
  listeners : nat;
  requests : list (list ascii);
  timers : list (nat * nat);
  next_handle : nat
}.

Definition initial_window (focused : option Element) : Window :=
  mkWindow (initial_page focused) false 0 0 [] [] 1.

(** [id || DEFAULT_ID]: a missing or empty id is falsy. *)
Definition id_or_default (id : option (list ascii)) : list ascii :=
  match id with
  | Some (c :: s) => c :: s
  | _ => DEFAULT_ID
  end.

Definition main (id : option (list ascii)) (w : Window) : Window :=
  let url := getDataUrl (id_or_default id) in
  let w1 := mkWindow (page w) (firstRun w) (processTimeout w) (listeners w)
                     (requests w ++ [url]) (timers w) (next_handle w) in
  if negb (firstRun w1)
  then mkWindow (page w1) true (processTimeout w1) (S (listeners w1))
                (requests w1) (timers w1) (next_handle w1)
  else w1.

Definition clearTimeout (handle : nat) (w : Window) : Window :=
  mkWindow (page w) (firstRun w) (processTimeout w) (listeners w) (requests w)
           (filter (λ t, t.1 ≠ handle) (timers w)) (next_handle w).

Definition setTimeout (delay : nat) (w : Window) : nat * Window :=
  (next_handle w,
   mkWindow (page w) (firstRun w) (processTimeout w) (listeners w) (requests w)
            (timers w ++ [(next_handle w, delay)]) (S (next_handle w))).

Definition onInput (target : Element) (w : Window) : Window :=
  if negb (isEditableElement target) then w
  else
    let w1 := if processTimeout w =? 0 then w
              else clearTimeout (processTimeout w) w in
    let '(handle, w2) := setTimeout WAIT_TIME w1 in
    mkWindow (page w2) (firstRun w2) handle (listeners w2) (requests w2)
             (timers w2) (next_handle w2).

(** What can happen to the window: the bookmarklet is run, an [input]
    event is dispatched (to [onInput], once per registration), a pending
    timeout expires, the answer to a pending request arrives (its cells
    already parsed), or the user changes the focused element or its
    content. *)
Inductive Event :=
  | Activate (id : option (list ascii))
  | InputEvent (target : Element)
  | Expire (handle : nat)
  | Response (i : nat) (entry : list (list ascii))
  | UserEdit (focused : option Element).

Definition set_page (p : Page) (w : Window) : Window :=
  mkWindow p (firstRun w) (processTimeout w) (listeners w) (requests w)
           (timers w) (next_handle w).

Definition step (e : Event) (w : Window) : option Window :=
  match e with
  | Activate id => Some (main id w)
  | InputEvent target => Some (Nat.iter (listeners w) (onInput target) w)
  | Expire handle =>
      if bool_decide (handle ∈ (timers w).*1) then
        p' ← processInput (page w);
        Some (set_page p' (clearTimeout handle w))
      else Some w
  | Response i entry =>
      match requests w !! i with
      | Some _ =>
          p' ← handleDataResponse entry (page w);
          Some (mkWindow p' (firstRun w) (processTimeout w) (listeners w)
                         (delete i (requests w)) (timers w) (next_handle w))
      | None => Some w
      end
  | UserEdit focused =>
      Some (set_page (mkPage (store (page w)) (trie (page w))
                             (console (page w)) focused) w)
  end.

Fixpoint run_events (es : list Event) (w : Window) : option Window :=
  match es with
  | [] => Some w
  | e :: es' => w' ← step e w; run_events es' w'
  end.

(** The user only leaves selections that lie within the text. *)
Definition selection_ok (element : Element) : Prop :=
  selectionStart element ≤ length (value element).

Definition edit_ok (e : Event) : Prop :=
  match e with
  | UserEdit (Some element) => selection_ok element
  | _ => True
  end.

(** What holds of the window whatever happens to it. *)
Definition window_inv (w : Window) : Prop :=
  good_page (page w) ∧
  (∀ element, activeElement (page w) = Some element → selection_ok element) ∧
  listeners w = (if firstRun w then 1 else 0) ∧
  processTimeout w < next_handle w ∧
  (timers w = [] ∨
   (timers w = [(processTimeout w, WAIT_TIME)] ∧ 0 < processTimeout w)).

Definition is_activate (e : Event) : bool :=
  match e with Activate _ => true | _ => false end.

(** * Lemmas *)

Section heap.
Implicit Types (h : list TrieNode) (l r cur : loc) (p q k : list ascii)
  (c : ascii) (n : TrieNode).

Lemma walk_app h l p q :
  walk h l (p ++ q) = walk h l p ≫= λ l', walk h l' q.
Proof.
  revert l. induction p as [|c p IH]; intros l; simpl; [done|].
  destruct (h !! l) as [n|]; simpl; [|done].
  destruct (edges n !! c) as [l'|]; simpl; [|done]. apply IH.
Qed.

Lemma walk_cons h l c p l2 :
  walk h l (c :: p) = Some l2 ↔ ∃ l1, edge_of h l c l1 ∧ walk h l1 p = Some l2.
Proof.
  simpl. split.
  - destruct (h !! l) as [n|] eqn:Hn; simpl; [|done].
    destruct (edges n !! c) as [l1|] eqn:He; simpl; [|done].
    intros Hw. exists l1. split; [by exists n|done].
  - intros (l1 & (n & Hn & He) & Hw). rewrite Hn; simpl. by rewrite He.
Qed.

Lemma walk_snoc h l p c l2 :
  walk h l (p ++ [c]) = Some l2 ↔ ∃ l1, walk h l p = Some l1 ∧ edge_of h l1 c l2.
Proof.
  rewrite walk_app. split.
  - destruct (walk h l p) as [l1|] eqn:Hp; simpl; [|done].
    destruct (h !! l1) as [n|] eqn:Hn; simpl; [|done].
    destruct (edges n !! c) as [l'|] eqn:He; simpl; [|done].
    intros [= <-]. exists l1. split; [done|by exists n].
  - intros (l1 & -> & n & Hn & He). simpl. rewrite Hn; simpl. by rewrite He.
Qed.

Lemma walk_bounds h p l l2 :
  wf_heap h → walk h l p = Some l2 →
  l ≤ l2 ∧ (p ≠ [] → l < l2 < length h).
Proof.
  intros Hwf. revert l. induction p as [|c p IH]; intros l.
  - intros [= <-]. split; [lia|done].
  - intros (l1 & He & Hw)%walk_cons.
    apply (wf_edge_lt _ Hwf) in He. destruct (IH _ Hw) as [Hle Hlt].
    split; [lia|]. intros _. destruct p as [|c' p'].
    + injection Hw as <-. lia.
    + specialize (Hlt ltac:(done)). lia.
Qed.

Lemma walk_lt_length h p l l2 :
  wf_heap h → l < length h → walk h l p = Some l2 → l2 < length h.
Proof.
  intros Hwf Hl Hw. destruct p as [|c p].
  - by injection Hw as <-.
  - by apply (walk_bounds _ _ _ _ Hwf Hw).
Qed.

(** In a forest a node is reached from [r] by at most one path. *)
Lemma walk_inj h r p q l :
  wf_heap h → walk h r p = Some l → walk h r q = Some l → p = q.
Proof.
  intros Hwf. revert q l.
  induction p as [|c p IH] using rev_ind; intros q l Hp Hq.
  - injection Hp as <-. destruct q as [|c q]; [done|].
    apply (walk_bounds _ _ _ _ Hwf) in Hq as [_ Hq].
    specialize (Hq ltac:(done)). lia.
  - destruct q as [|c' q _] using rev_ind.
    + injection Hq as <-.
      apply (walk_bounds _ _ _ _ Hwf) in Hp as [_ Hp].
      assert (p ++ [c] ≠ []) as Hne by (by destruct p).
      specialize (Hp Hne). lia.
    + apply walk_snoc in Hp as (a & Hp & Ha).
      apply walk_snoc in Hq as (b & Hq & Hb).
      destruct (wf_parent _ Hwf _ _ _ _ _ Ha Hb) as [-> ->].
      by rewrite (IH _ _ Hp Hq).
Qed.

Lemma edge_of_lt_length h l c l' : edge_of h l c l' → l < length h.
Proof. intros (n & Hn & _). by apply lookup_lt_Some in Hn. Qed.

Lemma edge_of_alloc h l c l' :
  edge_of (h ++ [new_TrieNode]) l c l' ↔ edge_of h l c l'.
Proof.
  split; intros (n & Hn & He).
  - apply lookup_app_Some in Hn as [Hn|[_ Hn]]; [by exists n|].
    apply list_lookup_singleton_Some in Hn as [_ <-]. done.
  - exists n. split; [|done]. by apply lookup_app_l_Some.
Qed.

Lemma wf_heap_alloc h : wf_heap h → wf_heap (h ++ [new_TrieNode]).
Proof.
  intros [Hlt Hpar]. split.
  - intros l c l' He. apply (proj1 (edge_of_alloc _ _ _ _)) in He.
    rewrite length_app; simpl. apply Hlt in He. lia.
  - intros l1 c1 l2 c2 l' H1 H2.
    apply (proj1 (edge_of_alloc _ _ _ _)) in H1, H2. eauto.
Qed.

Lemma attach_lookup h cur c n l :
  cur < length h →
  attach cur c n h !! l =
    if decide (l = cur) then Some (set_edge c (length h) n)
    else (h ++ [new_TrieNode]) !! l.
Proof.
  intros Hcur. unfold attach. case_decide as Hl.
  - subst. apply list_lookup_insert_eq. rewrite length_app. lia.
  - by apply list_lookup_insert_ne.
Qed.

Lemma attach_length h cur c n :
  length (attach cur c n h) = S (length h).
Proof. unfold attach. rewrite length_insert, length_app; simpl. lia. Qed.

Lemma edge_of_attach h cur c n l c' l' :
  h !! cur = Some n → edges n !! c = None →
  edge_of (attach cur c n h) l c' l' ↔
  edge_of h l c' l' ∨ (l = cur ∧ c' = c ∧ l' = length h).
Proof.
  intros Hn Hc. pose proof (lookup_lt_Some _ _ _ Hn) as Hcur.
  unfold edge_of. rewrite attach_lookup; [|done]. case_decide as Hl.
  - subst l. split.
    + intros (n' & [= <-] & He). simpl in He.
      apply lookup_insert_Some in He as [[<- <-]|[Hne He]]; eauto.
    + intros [(n' & Hn' & He)|(_ & -> & ->)].
      * simplify_eq. eexists. split; [done|]. simpl.
        rewrite lookup_insert_ne; [done|]. by intros ->; simplify_eq.
      * eexists. split; [done|]. simpl. by rewrite lookup_insert_eq.
  - split.
    + intros (n' & Hn' & He). left.
      by apply (edge_of_alloc h l c' l'); exists n'.
    + intros [He|(? & _)]; [|done]. by apply edge_of_alloc.
Qed.

Lemma wf_heap_attach h cur c n :
  wf_heap h → h !! cur = Some n → edges n !! c = None →
  wf_heap (attach cur c n h).
Proof.
  intros Hwf Hn Hc. pose proof (lookup_lt_Some _ _ _ Hn) as Hcur. split.
  - intros l c' l' [He|(-> & -> & ->)]%edge_of_attach; [| |done..].
    + apply (wf_edge_lt _ Hwf) in He. rewrite attach_length. lia.
    + rewrite attach_length. lia.
  - intros l1 c1 l2 c2 l' H1 H2.
    apply edge_of_attach in H1 as [H1|(E1 & E2 & E3)]; [| |done..];
      apply edge_of_attach in H2 as [H2|(F1 & F2 & F3)]; try done.
    + by apply (wf_parent _ Hwf _ _ _ _ _ H1 H2).
    + apply (wf_edge_lt _ Hwf) in H1. lia.
    + apply (wf_edge_lt _ Hwf) in H2. lia.
    + by subst.
Qed.

Lemma attach_walk_old h cur c n p a l :
  h !! cur = Some n → edges n !! c = None →
  walk h a p = Some l → walk (attach cur c n h) a p = Some l.
Proof.
  intros Hn Hc. revert a. induction p as [|c' p IH]; intros a; [done|].
  rewrite !walk_cons. intros (a1 & He & Hw). exists a1. split; [|by apply IH].
  apply edge_of_attach; auto.
Qed.

Lemma attach_walk_new h cur c n p a l :
  wf_heap h → h !! cur = Some n → edges n !! c = None →
  walk (attach cur c n h) a p = Some l →
  walk h a p = Some l ∨
  (l = length h ∧ ∃ p1, p = p1 ++ [c] ∧ walk h a p1 = Some cur).
Proof.
  intros Hwf Hn Hc. revert a. induction p as [|c' p IH]; intros a; [by left|].
  rewrite walk_cons. intros (a1 & He & Hw).
  apply edge_of_attach in He as [He|(-> & -> & ->)]; [| |done..].
  - destruct (IH _ Hw) as [Hold|(-> & p1 & -> & Hp1)].
    + left. apply walk_cons. eauto.
    + right. split; [done|]. exists (c' :: p1). split; [done|].
      apply walk_cons. eauto.
  - right. destruct p as [|c2 p].
    + injection Hw as <-. split; [done|]. by exists [].
    + apply walk_cons in Hw as (a2 & He & _).
      apply edge_of_attach in He as [He|(Heq & _)]; [| |done..].
      * apply edge_of_lt_length in He. lia.
      * apply lookup_lt_Some in Hn. lia.
Qed.

Lemma attach_content h cur c n l :
  h !! cur = Some n →
  content (attach cur c n h) l =
    if decide (l = length h) then Some (false, None) else content h l.
Proof.
  intros Hn. pose proof (lookup_lt_Some _ _ _ Hn) as Hcur.
  unfold content. rewrite attach_lookup; [|done].
  case_decide as Hl; case_decide as Hl'; subst; try lia.
  - by rewrite Hn.
  - rewrite lookup_app_r by lia. by rewrite Nat.sub_diag.
  - destruct (decide (l < length h)).
    + by rewrite lookup_app_l.
    + rewrite !lookup_ge_None_2; [done|lia|]. rewrite length_app; simpl. lia.
Qed.

(** Creating the missing edge [c] below the node at path [q] makes exactly
    the path [q ++ [c]] newly observable, as an unmarked node. *)
Lemma attach_obs h r q cur c n p :
  wf_heap h → walk h r q = Some cur →
  h !! cur = Some n → edges n !! c = None →
  obs (attach cur c n h) r p =
    if decide (p = q ++ [c]) then Some (false, None) else obs h r p.
Proof.
  intros Hwf Hq Hn Hc. pose proof (lookup_lt_Some _ _ _ Hn) as Hcur.
  unfold obs. case_decide as Hp.
  - subst p. erewrite (proj2 (walk_snoc _ _ _ _ (length h))).
    + simpl. rewrite attach_content by done. by rewrite decide_True.
    + exists cur. split; [by eapply attach_walk_old|].
      apply edge_of_attach; auto.
  - destruct (walk (attach cur c n h) r p) as [l|] eqn:Hw.
    + apply attach_walk_new in Hw as [Hw|(-> & p1 & -> & Hp1)]; [| |done..].
      * rewrite Hw; simpl. rewrite attach_content by done.
        rewrite decide_False; [done|].
        assert (r < length h).
        { pose proof (walk_bounds _ _ _ _ Hwf Hq). lia. }
        pose proof (walk_lt_length _ _ _ _ Hwf H Hw). lia.
      * by rewrite (walk_inj _ _ _ _ _ Hwf Hp1 Hq) in Hp.
    + destruct (walk h r p) as [l|] eqn:Hw'; [|done].
      by rewrite (attach_walk_old _ _ _ _ _ _ _ Hn Hc Hw') in Hw.
Qed.

Lemma edge_of_set_leaf h l0 n0 v l c l' :
  h !! l0 = Some n0 →
  edge_of (<[l0 := set_leaf v n0]> h) l c l' ↔ edge_of h l c l'.
Proof.
  intros Hn0. pose proof (lookup_lt_Some _ _ _ Hn0) as Hl0. unfold edge_of.
  destruct (decide (l = l0)) as [->|Hne].
  - rewrite list_lookup_insert_eq by done. split.
    + intros (n & [= <-] & He). eauto.
    + intros (n & Hn & He). simplify_eq. eauto.
  - by rewrite list_lookup_insert_ne.
Qed.

Lemma wf_heap_set_leaf h l0 n0 v :
  wf_heap h → h !! l0 = Some n0 → wf_heap (<[l0 := set_leaf v n0]> h).
Proof.
  intros [Hlt Hpar] Hn0. split.
  - intros l c l' He. rewrite length_insert.
    apply (Hlt l c l'), (edge_of_set_leaf h l0 n0 v); done.
  - intros l1 c1 l2 c2 l' H1 H2.
    apply (proj1 (edge_of_set_leaf h l0 n0 v _ _ _ Hn0)) in H1, H2.
    by apply (Hpar _ _ _ _ _ H1 H2).
Qed.

Lemma set_leaf_walk h l0 n0 v a p :
  h !! l0 = Some n0 → walk (<[l0 := set_leaf v n0]> h) a p = walk h a p.
Proof.
  intros Hn0. revert a. induction p as [|c p IH]; intros a; [done|].
  apply option_eq. intros l. rewrite !walk_cons.
  split; intros (a1 & He & Hw); exists a1.
  - split; [by apply (edge_of_set_leaf h l0 n0 v)|by rewrite <-IH].
  - split; [by apply (edge_of_set_leaf h l0 n0 v)|by rewrite IH].
Qed.

Lemma set_leaf_content h l0 n0 v l :
  h !! l0 = Some n0 →
  content (<[l0 := set_leaf v n0]> h) l =
    if decide (l = l0) then Some (true, Some v) else content h l.
Proof.
  intros Hn0. pose proof (lookup_lt_Some _ _ _ Hn0) as Hl0. unfold content.
  case_decide as Hl.
  - subst. by rewrite list_lookup_insert_eq.
  - by rewrite list_lookup_insert_ne.
Qed.

(** Marking the node at path [k] changes what is observed at [k] only. *)
Lemma set_leaf_obs h r k l0 n0 v p :
  wf_heap h → walk h r k = Some l0 → h !! l0 = Some n0 →
  obs (<[l0 := set_leaf v n0]> h) r p =
    if decide (p = k) then Some (true, Some v) else obs h r p.
Proof.
  intros Hwf Hk Hn0. unfold obs. rewrite set_leaf_walk by done.
  case_decide as Hp.
  - subst. rewrite Hk. simpl. rewrite set_leaf_content by done.
    by rewrite decide_True.
  - destruct (walk h r p) as [l|] eqn:Hw; [|done]. simpl.
    rewrite set_leaf_content by done. rewrite decide_False; [done|].
    intros ->. by rewrite (walk_inj _ _ _ _ _ Hwf Hw Hk) in Hp.
Qed.

Lemma add_loop_cons cur c rest v h :
  add_loop cur (c :: rest) v h =
    ensure_edge cur c h ≫= λ '(next, h1),
      mark_last next rest v h1 ≫= add_loop next rest v.
Proof.
  unfold ensure_edge, mark_last, attach. simpl.
  destruct (h !! cur) as [n|]; [|done]. simpl.
  destruct (edges n !! c) as [l'|]; simpl.
  - destruct (h !! cur) as [n1|]; [|done]. simpl.
    destruct (edges n1 !! c); [|done]. simpl. by destruct rest.
  - match goal with |- context [?hh !! cur] => destruct (hh !! cur) as [n1|] end;
      [|done]. simpl.
    destruct (edges n1 !! c); [|done]. simpl. by destruct rest.
Qed.

Lemma ensure_edge_spec h r q cur c :
  wf_heap h → walk h r q = Some cur → r < length h →
  ∃ next h1, ensure_edge cur c h = Some (next, h1) ∧ wf_heap h1 ∧
    walk h1 r (q ++ [c]) = Some next ∧ length h ≤ length h1 ∧
    ∀ p, obs h1 r p =
           if decide (p = q ++ [c])
           then Some (default (false, None) (obs h r p)) else obs h r p.
Proof.
  intros Hwf Hq Hr. pose proof (walk_lt_length _ _ _ _ Hwf Hr Hq) as Hcur.
  destruct (lookup_lt_is_Some_2 _ _ Hcur) as [n Hn].
  unfold ensure_edge. rewrite Hn. simpl.
  destruct (edges n !! c) as [next|] eqn:He.
  - rewrite Hn. simpl. rewrite He. simpl. exists next, h.
    assert (walk h r (q ++ [c]) = Some next) as Hnext.
    { apply walk_snoc. exists cur. split; [done|by exists n]. }
    split_and!; try done. intros p. case_decide as Hp; [|done].
    subst p. unfold obs. rewrite Hnext. simpl.
    pose proof (walk_lt_length _ _ _ _ Hwf Hr Hnext) as Hlt.
    destruct (lookup_lt_is_Some_2 _ _ Hlt) as [n' Hn'].
    unfold content. by rewrite Hn'.
  - rewrite attach_lookup by done. rewrite decide_True by done. simpl.
    rewrite lookup_insert_eq. simpl. exists (length h), (attach cur c n h).
    split; [done|]. split; [by apply wf_heap_attach|]. split.
    { apply walk_snoc. exists cur. split; [by eapply attach_walk_old|].
      apply edge_of_attach; auto. }
    split; [rewrite attach_length; lia|].
    intros p. rewrite (attach_obs _ _ q) by done.
    case_decide as Hp; [|done]. subst p.
    unfold obs. rewrite walk_app, Hq. simpl. rewrite Hn. simpl.
    by rewrite He.
Qed.

Lemma mark_last_spec h1 r k next rest v :
  wf_heap h1 → walk h1 r k = Some next → r < length h1 →
  ∃ h2, mark_last next rest v h1 = Some h2 ∧ wf_heap h2 ∧
    walk h2 r k = Some next ∧ length h2 = length h1 ∧
    ∀ p, obs h2 r p =
           if decide (rest = [] ∧ p = k) then Some (true, Some v)
           else obs h1 r p.
Proof.
  intros Hwf Hk Hr. unfold mark_last. destruct rest as [|c rest].
  - pose proof (walk_lt_length _ _ _ _ Hwf Hr Hk) as Hlt.
    destruct (lookup_lt_is_Some_2 _ _ Hlt) as [n Hn]. rewrite Hn. simpl.
    eexists. split; [done|]. split; [by apply wf_heap_set_leaf|].
    split; [by rewrite set_leaf_walk|]. split; [by rewrite length_insert|].
    intros p. rewrite (set_leaf_obs _ _ k) by done.
    case_decide; [by rewrite decide_True|]. rewrite decide_False; [done|].
    by intros [_ ?].
  - exists h1. split_and!; try done.
    all: intros p; rewrite decide_False; [done|naive_solver].
Qed.

Lemma extends_cons q c rest p :
  extends q (c :: rest) p ↔ p = q ++ [c] ∨ extends (q ++ [c]) rest p.
Proof.
  unfold extends. split.
  - intros (x & Hx & Hpre & ->). destruct x as [|c' x]; [done|].
    apply prefix_cons_inv_1 in Hpre as Hc. subst c'.
    apply prefix_cons_inv_2 in Hpre.
    destruct x as [|c2 x]; [by left|]. right.
    exists (c2 :: x). split; [done|]. split; [done|].
    by rewrite <-app_assoc.
  - intros [->|(x & Hx & Hpre & ->)].
    + exists [c]. split; [done|]. split; [|done].
      apply prefix_cons, prefix_nil.
    + exists (c :: x). split; [done|]. split; [by apply prefix_cons|].
      by rewrite <-app_assoc.
Qed.

Lemma not_extends_self q rest : ¬ extends q rest q.
Proof.
  intros (x & Hx & _ & Heq). apply Hx.
  apply (inj (app q)). by rewrite app_nil_r.
Qed.

(** The loop of [add], started at the node [cur] found at path [q] below
    [r]: it succeeds, keeps the heap a forest, marks [q ++ rest], makes
    every path in between observable and changes nothing else. *)
Lemma add_loop_spec rest : ∀ q cur h r v,
  wf_heap h → walk h r q = Some cur → r < length h →
  ∃ h', add_loop cur rest v h = Some h' ∧ wf_heap h' ∧
    length h ≤ length h' ∧
    (rest ≠ [] → obs h' r (q ++ rest) = Some (true, Some v)) ∧
    (∀ p, extends q rest p → p ≠ q ++ rest →
       obs h' r p = Some (default (false, None) (obs h r p))) ∧
    (∀ p, ¬ extends q rest p → obs h' r p = obs h r p).
Proof.
  induction rest as [|c rest IH]; intros q cur h r v Hwf Hq Hr.
  { exists h. split_and!; try done. intros p (x & Hx & Hpre & _).
    by apply prefix_nil_inv in Hpre. }
  rewrite add_loop_cons.
  destruct (ensure_edge_spec h r q cur c Hwf Hq Hr)
    as (next & h1 & -> & Hwf1 & Hnext & Hlen1 & Hobs1).
  simpl.
  destruct (mark_last_spec h1 r (q ++ [c]) next rest v Hwf1 Hnext ltac:(lia))
    as (h2 & -> & Hwf2 & Hnext2 & Hlen2 & Hobs2).
  simpl.
  destruct (IH (q ++ [c]) next h2 r v Hwf2 Hnext2 ltac:(lia))
    as (h' & -> & Hwf' & Hlen' & Hend & Hmid & Hout).
  exists h'. split; [done|]. split; [done|]. split; [lia|].
  assert (∀ p, p ≠ q ++ [c] → obs h2 r p = obs h r p) as Hother.
  { intros p Hp. rewrite Hobs2, decide_False by (by intros [_ ?]).
    by rewrite Hobs1, decide_False. }
  split_and!.
  - intros _. destruct rest as [|c' rest].
    + rewrite Hout by apply not_extends_self.
      rewrite Hobs2. by rewrite decide_True.
    + replace (q ++ c :: c' :: rest) with ((q ++ [c]) ++ c' :: rest)
        by (by rewrite <-app_assoc).
      by apply Hend.
  - intros p [->|Hext]%extends_cons Hp.
    + rewrite Hout by apply not_extends_self.
      rewrite Hobs2, decide_False.
      * by rewrite Hobs1, decide_True.
      * intros [-> _]. done.
    + rewrite Hmid; [|done|by rewrite <-app_assoc].
      rewrite Hother; [done|]. intros ->. by apply not_extends_self in Hext.
  - intros p Hp. rewrite Hout.
    + apply Hother. intros ->. apply Hp, extends_cons. by left.
    + intros Hext. apply Hp, extends_cons. by right.
Qed.

(** [add] from the root, in closed form. *)
Lemma add_loop_root h r k v :
  wf_heap h → r < length h →
  ∃ h', add_loop r k v h = Some h' ∧ wf_heap h' ∧ length h ≤ length h' ∧
    ∀ p, obs h' r p = add_spec k v (obs h r) p.
Proof.
  intros Hwf Hr.
  destruct (add_loop_spec k [] r h r v Hwf eq_refl Hr)
    as (h' & Hadd & Hwf' & Hlen & Hend & Hmid & Hout).
  exists h'. split_and!; try done. intros p. unfold add_spec.
  simpl in Hend, Hmid. case_decide as Hk.
  - destruct Hk as [Hk ->]. exact (Hend Hk).
  - case_decide as Hp.
    + destruct Hp as [Hp Hpre]. apply Hmid.
      * by exists p.
      * intros ->. by apply Hk.
    + apply Hout. intros (x & Hx & Hpre & ->). by apply Hp.
Qed.

End heap.

Section store.
Implicit Types (σ : Store) (h : list TrieNode) (t r l : nat)
  (p q k v cs : list ascii) (c : ascii)
  (f g : list ascii → option (bool * option (list ascii))).

Lemma wf_heap_nil : wf_heap [].
Proof.
  split; [intros l c l' (n & Hn & _)|intros l1 c1 l2 c2 l' (n & Hn & _) _];
    done.
Qed.

Lemma wf_store_empty : wf_store empty_store.
Proof. split; [apply wf_heap_nil|]. simpl. lia. Qed.

Lemma get_root_lt σ t r :
  wf_store σ → get_root t σ = Some r → r < length (heap σ).
Proof.
  intros [_ Hroots] Hr. destruct (Hroots t) as (r' & Hr' & Hlt).
  - unfold get_root in Hr. destruct (tries σ !! t) eqn:Ht; [|done].
    by apply lookup_lt_Some in Ht.
  - by simplify_eq.
Qed.

Lemma wf_store_new_Trie σ : wf_store σ → wf_store (new_Trie σ).2.
Proof.
  intros [Hwf Hroots]. split; simpl; [by apply wf_heap_alloc|].
  intros t Ht. rewrite length_app in Ht. simpl in Ht.
  unfold get_root. simpl. rewrite length_app. simpl.
  destruct (decide (t < length (tries σ))) as [Hlt|Hge].
  - rewrite lookup_app_l by done.
    destruct (Hroots t Hlt) as (r & Hr & Hrlt). unfold get_root in Hr.
    destruct (tries σ !! t) as [[r'|]|]; simplify_eq.
    + exists r. split; [done|lia].
    + eexists. split; [done|lia].
  - rewrite lookup_app_r by lia.
    replace (t - length (tries σ)) with 0 by lia. simpl.
    eexists. split; [done|lia].
Qed.

Lemma wf_store_clear σ t : wf_store σ → wf_store (Trie_clear t σ).
Proof.
  intros [Hwf Hroots]. split; simpl; [by apply wf_heap_alloc|].
  intros t' Ht'. rewrite length_insert in Ht'.
  unfold get_root. simpl. rewrite length_app. simpl.
  destruct (decide (t' = t)) as [->|Hne].
  - rewrite list_lookup_insert_eq by done. eexists. split; [done|lia].
  - rewrite list_lookup_insert_ne by done.
    destruct (Hroots t' Ht') as (r & Hr & Hrlt). unfold get_root in Hr.
    exists r. split; [done|lia].
Qed.

Lemma get_root_clear σ t :
  t < length (tries σ) → get_root t (Trie_clear t σ) = Some (length (heap σ)).
Proof.
  intros Ht. unfold get_root. simpl. by rewrite list_lookup_insert_eq.
Qed.

Lemma get_root_new_Trie σ :
  get_root (new_Trie σ).1 (new_Trie σ).2 = Some (length (heap σ)).
Proof.
  unfold get_root. simpl. rewrite lookup_app_r by lia.
  by rewrite Nat.sub_diag.
Qed.

Lemma walk_fresh h r p l :
  h !! r = Some new_TrieNode → walk h r p = Some l → p = [].
Proof.
  intros Hr Hw. destruct p as [|c p]; [done|].
  apply walk_cons in Hw as (l1 & (n & Hn & He) & _). by simplify_eq.
Qed.

Lemma obs_fresh h r p : h !! r = Some new_TrieNode → obs h r p = empty_obs p.
Proof.
  intros Hr. unfold obs, empty_obs. case_decide as Hp.
  - subst. simpl. unfold content. by rewrite Hr.
  - destruct (walk h r p) eqn:Hw; [|done].
    by apply walk_fresh in Hw.
Qed.

Lemma add_spec_ext k v f g p :
  (∀ p, f p = g p) → add_spec k v f p = add_spec k v g p.
Proof. intros Hfg. unfold add_spec. by rewrite Hfg. Qed.

Lemma adds_spec_ext kvs : ∀ f g p,
  (∀ p, f p = g p) → adds_spec kvs f p = adds_spec kvs g p.
Proof.
  induction kvs as [|[k v] kvs IH]; intros f g p Hfg; simpl; [done|].
  apply IH. intros p'. by apply add_spec_ext.
Qed.

Lemma Trie_add_spec σ t r k v :
  wf_store σ → get_root t σ = Some r →
  ∃ σ', Trie_add t k v σ = Some σ' ∧ wf_store σ' ∧
    tries σ' = tries σ ∧ proto_root σ' = proto_root σ ∧
    ∀ p, obs (heap σ') r p = add_spec k v (obs (heap σ) r) p.
Proof.
  intros Hwf Hr. pose proof (get_root_lt _ _ _ Hwf Hr) as Hlt.
  destruct Hwf as [Hwf Hroots].
  destruct (add_loop_root (heap σ) r k v Hwf Hlt)
    as (h' & Hadd & Hwf' & Hlen & Hobs).
  unfold Trie_add. rewrite Hr, Hadd. simpl.
  eexists. split; [done|]. split_and!; try done.
  split; [done|]. simpl. intros t' Ht'.
  destruct (Hroots t' Ht') as (r' & Hr' & Hlt'). exists r'.
  split; [done|lia].
Qed.

Lemma Trie_add_all_spec kvs : ∀ σ t r,
  wf_store σ → get_root t σ = Some r →
  ∃ σ', Trie_add_all t kvs σ = Some σ' ∧ wf_store σ' ∧
    tries σ' = tries σ ∧ proto_root σ' = proto_root σ ∧
    ∀ p, obs (heap σ') r p = adds_spec kvs (obs (heap σ) r) p.
Proof.
  induction kvs as [|[k v] kvs IH]; intros σ t r Hwf Hr.
  { exists σ. by split_and!. }
  destruct (Trie_add_spec σ t r k v Hwf Hr)
    as (σ1 & Hadd & Hwf1 & Htr1 & Hpr1 & Hobs1).
  assert (get_root t σ1 = Some r) as Hr1.
  { unfold get_root in *. by rewrite Htr1, Hpr1. }
  destruct (IH σ1 t r Hwf1 Hr1) as (σ' & Hall & Hwf' & Htr' & Hpr' & Hobs').
  exists σ'. simpl. rewrite Hadd. simpl. split; [done|].
  split_and!; try congruence.
  intros p. rewrite Hobs'. by apply adds_spec_ext.
Qed.

(** A [traverse] call reports what is observable one character further
    down, and moves there exactly when something is. *)
Lemma traverse_obs h r q l c :
  wf_heap h → r < length h → walk h r q = Some l →
  ∃ l', traverse c (mkTraverser (Some l)) h
          = Some (result_of (obs h r (q ++ [c])), mkTraverser (Some l')) ∧
        walk h r (match obs h r (q ++ [c]) with
                  | Some _ => q ++ [c] | None => q end) = Some l'.
Proof.
  intros Hwf Hr Hq. pose proof (walk_lt_length _ _ _ _ Hwf Hr Hq) as Hl.
  destruct (lookup_lt_is_Some_2 _ _ Hl) as [n Hn].
  unfold traverse, obs. simpl. rewrite Hn. simpl.
  rewrite walk_app, Hq. simpl. rewrite Hn. simpl.
  destruct (edges n !! c) as [l'|] eqn:He; simpl.
  - assert (edge_of h l c l') as Hedge by (by exists n).
    apply (wf_edge_lt _ Hwf) in Hedge.
    destruct (lookup_lt_is_Some_2 h l') as [n' Hn']; [lia|].
    unfold content. rewrite Hn'. simpl. exists l'. split; [done|].
    rewrite walk_app, Hq. simpl. rewrite Hn. simpl. by rewrite He.
  - by exists l.
Qed.

Lemma traverse_all_obs h r cs : ∀ q l,
  wf_heap h → r < length h → walk h r q = Some l →
  traverse_all cs (mkTraverser (Some l)) h = Some (results (obs h r) q cs).
Proof.
  induction cs as [|c cs IH]; intros q l Hwf Hr Hq; [done|].
  destruct (traverse_obs h r q l c Hwf Hr Hq) as (l' & Htr & Hq').
  simpl. rewrite Htr. simpl. by rewrite (IH _ _ Hwf Hr Hq').
Qed.

Lemma traverse_all_root σ t r cs :
  wf_store σ → get_root t σ = Some r →
  traverse_all cs (new_TrieTraverser t σ) (heap σ)
    = Some (results (obs (heap σ) r) [] cs).
Proof.
  intros Hwf Hr. unfold new_TrieTraverser. rewrite Hr.
  apply traverse_all_obs; [by destruct Hwf|by eapply get_root_lt|done].
Qed.

Lemma results_ext f g cs : ∀ q,
  (∀ p, f p = g p) → results f q cs = results g q cs.
Proof.
  induction cs as [|c cs IH]; intros q Hfg; [done|].
  simpl. rewrite Hfg. f_equal. by apply IH.
Qed.

End store.

Section lookups.
Implicit Types (p q k v cs : list ascii) (c : ascii)
  (f g : list ascii → option (bool * option (list ascii))).

Lemma add_spec_is_Some k v f p :
  is_Some (f p) → is_Some (add_spec k v f p).
Proof. intros Hf. unfold add_spec. repeat case_decide; eauto. Qed.

Lemma add_spec_key k v f : k ≠ [] → add_spec k v f k = Some (true, Some v).
Proof. intros Hk. unfold add_spec. by rewrite decide_True. Qed.

Lemma add_spec_prefix k v f p :
  p ≠ [] → p `prefix_of` k → is_Some (add_spec k v f p).
Proof. intros Hp Hpre. unfold add_spec. repeat case_decide; eauto. tauto. Qed.

(** A later [add] of another key leaves an existing node's mark alone. *)
Lemma add_spec_other k v f p y :
  p ≠ k → f p = Some y → add_spec k v f p = Some y.
Proof.
  intros Hne Hf. unfold add_spec. rewrite decide_False by (by intros [_ ?]).
  case_decide; [by rewrite Hf|done].
Qed.

Lemma adds_spec_is_Some kvs : ∀ f p,
  is_Some (f p) → is_Some (adds_spec kvs f p).
Proof.
  induction kvs as [|[k v] kvs IH]; intros f p Hf; [done|].
  simpl. by apply IH, add_spec_is_Some.
Qed.

Lemma adds_spec_other kvs : ∀ f p y,
  p ∉ kvs.*1 → f p = Some y → adds_spec kvs f p = Some y.
Proof.
  induction kvs as [|[k v] kvs IH]; intros f p y Hp Hf; [done|].
  simpl in *. apply not_elem_of_cons in Hp as [Hne Hp].
  by apply IH, add_spec_other.
Qed.

Lemma results_length f cs : ∀ q, length (results f q cs) = length cs.
Proof. induction cs as [|c cs IH]; intros q; simpl; [done|by rewrite IH]. Qed.

(** Along a path on which every node exists the traverser always
    advances, and its last report is the observation at the end. *)
Lemma results_path f k : ∀ q,
  (∀ x, x ≠ [] → x `prefix_of` k → is_Some (f (q ++ x))) →
  Forall (λ r, couldTraverse r = true) (results f q k) ∧
  (k ≠ [] → last (results f q k) = Some (result_of (f (q ++ k)))).
Proof.
  induction k as [|c k IH]; intros q Hpre; [done|].
  simpl. destruct (Hpre [c]) as [[leaf d] Hc];
    [done|apply prefix_cons, prefix_nil|].
  rewrite Hc. simpl.
  destruct (IH (q ++ [c])) as [Hall Hlast].
  { intros x Hx Hx'. rewrite <-app_assoc. simpl.
    apply Hpre; [done|by apply prefix_cons]. }
  split; [by constructor|]. intros _. rewrite last_cons.
  destruct k as [|c' k]; [by rewrite Hc|].
  rewrite Hlast by done. by rewrite <-app_assoc.
Qed.

End lookups.

Section engine.
Implicit Types (h : list TrieNode) (element : Element) (c char : ascii)
  (stored : list ascii).

Lemma changed_by_toLowerCase char :
  bool_decide (char = char_toLowerCase char) = negb (is_upper char).
Proof. by destruct char as [[] [] [] [] [] [] [] []]. Qed.

Lemma capitalize_nil_or stored :
  (if 0 <? length stored then capitalize stored else stored) = capitalize stored.
Proof. by destruct stored. Qed.

(** The pass that reaches a leaf at a word boundary: the replacement is
    written into the element, and the body falls through to the next
    pass. *)
Lemma loop_body_match h cp pos trav trav' element char stored :
  value element !! pos = Some char →
  traverse (char_toLowerCase char) trav h
    = Some (mkResult true (Some true) (Some stored), trav') →
  at_word_boundary element pos = true →
  loop_body h cp pos trav element =
    let before := take pos (value element) in
    let replacement := if is_upper char then capitalize stored else stored in
    let after := drop cp (value element) in
    Some (Continue, trav',
          mkElement (tagName element) (before ++ replacement ++ after)
                    (length before + length replacement)
                    (length before + length replacement)).
Proof.
  intros Hchar Htr Hb. unfold loop_body. rewrite Hchar. simpl.
  rewrite Htr. simpl. rewrite Hb. simpl.
  rewrite changed_by_toLowerCase, negb_involutive.
  destruct (is_upper char); simpl; [|done].
  by rewrite capitalize_nil_or.
Qed.

(** The pass that reaches a leaf which is not at a word boundary. *)
Lemma loop_body_no_boundary h cp pos trav trav' element char res :
  value element !! pos = Some char →
  traverse (char_toLowerCase char) trav h = Some (res, trav') →
  couldTraverse res = true → res_isLeaf res = Some true →
  at_word_boundary element pos = false →
  loop_body h cp pos trav element = Some (Continue, trav', element).
Proof.
  intros Hchar Htr Hct Hleaf Hb. unfold loop_body. rewrite Hchar. simpl.
  rewrite Htr. simpl. rewrite Hct. simpl.
  rewrite bool_decide_eq_true_2 by done. by rewrite Hb.
Qed.

Lemma traverse_fresh h r c :
  h !! r = Some new_TrieNode →
  traverse c (mkTraverser (Some r)) h = Some (no_traverse, mkTraverser (Some r)).
Proof. intros Hr. unfold traverse. simpl. by rewrite Hr. Qed.

Lemma traverse_all_fresh h r cs :
  h !! r = Some new_TrieNode →
  traverse_all cs (mkTraverser (Some r)) h
    = Some (replicate (length cs) no_traverse).
Proof.
  intros Hr. induction cs as [|c cs IH]; [done|].
  simpl. rewrite traverse_fresh by done. simpl. by rewrite IH.
Qed.

(** Over an empty trie the loop breaks in its first pass. *)
Lemma processInput_loop_fresh h r element :
  h !! r = Some new_TrieNode →
  selectionStart element ≤ length (value element) →
  processInput_loop h (selectionStart element) (selectionStart element)
    (mkTraverser (Some r)) element = Some element.
Proof.
  intros Hr Hsel. destruct (selectionStart element) as [|pos] eqn:Hpos; [done|].
  simpl. unfold loop_body.
  destruct (lookup_lt_is_Some_2 (value element) pos) as [char Hchar]; [lia|].
  rewrite Hchar. simpl. by rewrite traverse_fresh.
Qed.

End engine.

Section rebuild.
Implicit Types (h : list TrieNode) (p q k v cs : list ascii)
  (f g : list ascii → option (bool * option (list ascii))).

Lemma walk_alloc h a p :
  wf_heap h → a < length h → walk (h ++ [new_TrieNode]) a p = walk h a p.
Proof.
  intros Hwf. revert a. induction p as [|c p IH]; intros a Ha; [done|].
  apply option_eq. intros l. rewrite !walk_cons.
  split; intros (a1 & He & Hw); exists a1.
  - apply (proj1 (edge_of_alloc _ _ _ _)) in He. split; [done|].
    rewrite <-IH; [done|]. apply (wf_edge_lt _ Hwf) in He. lia.
  - split; [by apply edge_of_alloc|].
    rewrite IH; [done|]. apply (wf_edge_lt _ Hwf) in He. lia.
Qed.

(** Allocating a node elsewhere does not change what a trie shows. *)
Lemma obs_alloc h r p :
  wf_heap h → r < length h → obs (h ++ [new_TrieNode]) r p = obs h r p.
Proof.
  intros Hwf Hr. unfold obs. rewrite walk_alloc by done.
  destruct (walk h r p) as [l|] eqn:Hw; [|done]. simpl.
  pose proof (walk_lt_length _ _ _ _ Hwf Hr Hw). unfold content.
  by rewrite lookup_app_l.
Qed.

(** Insertions of different keys commute, as far as can be observed. *)
Lemma add_spec_comm k1 v1 k2 v2 f p :
  k1 ≠ k2 →
  add_spec k1 v1 (add_spec k2 v2 f) p = add_spec k2 v2 (add_spec k1 v1 f) p.
Proof.
  intros Hne. unfold add_spec.
  repeat case_decide; destruct_and?; simplify_eq; try done; try tauto.
Qed.

Lemma adds_spec_perm (l1 l2 : list (list ascii * list ascii)) :
  l1 ≡ₚ l2 → NoDup l1.*1 → ∀ f p, adds_spec l1 f p = adds_spec l2 f p.
Proof.
  induction 1 as [|x l l' Hperm IH|x y l|l l' l'' H1 IH1 H2 IH2];
    intros Hnd f p.
  - done.
  - simpl. apply IH. by apply NoDup_cons in Hnd as [_ ?].
  - simpl. apply adds_spec_ext. intros p'. apply add_spec_comm.
    simpl in Hnd. apply NoDup_cons in Hnd as [Hin _].
    intros Heq. apply Hin. rewrite Heq. by left.
  - rewrite IH1 by done. apply IH2. by rewrite <-H1.
Qed.

End rebuild.

Section sharing.
Implicit Types (σ : Store) (k v : list ascii).

(** A key just added to trie [t] is found by a fresh traverser. *)
Lemma found_after_add σ t r k v :
  wf_store σ → get_root t σ = Some r → k ≠ [] →
  ∃ σ', Trie_add t k v σ = Some σ' ∧ wf_store σ' ∧
    tries σ' = tries σ ∧ proto_root σ' = proto_root σ ∧
    obs (heap σ') r k = Some (true, Some v) ∧
    ∀ x, x ≠ [] → x `prefix_of` k → is_Some (obs (heap σ') r x).
Proof.
  intros Hwf Hr Hk.
  destruct (Trie_add_spec σ t r k v Hwf Hr)
    as (σ' & Hadd & Hwf' & Htr & Hpr & Hobs).
  exists σ'. split_and!; try done.
  - rewrite Hobs. by apply add_spec_key.
  - intros x Hx Hpre. rewrite Hobs. by apply add_spec_prefix.
Qed.

Lemma last_result_found σ t r k v :
  wf_store σ → get_root t σ = Some r → k ≠ [] →
  obs (heap σ) r k = Some (true, Some v) →
  (∀ x, x ≠ [] → x `prefix_of` k → is_Some (obs (heap σ) r x)) →
  ∃ rs, traverse_all k (new_TrieTraverser t σ) (heap σ) = Some rs ∧
        last rs = Some (mkResult true (Some true) (Some v)).
Proof.
  intros Hwf Hr Hk Hobs Hpre. eexists. split; [by apply traverse_all_root|].
  destruct (results_path (obs (heap σ) r) k [] Hpre) as [_ Hlast].
  rewrite Hlast by done. simpl. by rewrite Hobs.
Qed.

End sharing.

(** The store right after [var trie = new Trie()]. *)
Lemma wf_store_first_trie : wf_store (new_Trie empty_store).2.
Proof. apply wf_store_new_Trie, wf_store_empty. Qed.

(** * The claims *)

(** C1, on the code: with [b -> be] and [a.b -> Y] loaded, the text [a.b]
    and the cursor at offset 3, the first pass replaces [b] (the text
    becomes [a.be]) and falls through to the next pass; the scan goes on
    through [.] and [a], reaches the leaf of [a.b] and replaces a second
    time, cutting the new text at the old cursor position: the field ends
    as [Ye]. *)
Theorem C1_second_replacement_after_match :
  let p := loaded [("b", "be"); ("a.b", "Y")] in
  let h := heap (store p) in
  let e0 := input_at (lit "a.b") 3 in
  ∃ trav1 e1 trav2 trav3 e3,
    loop_body h 3 2 (new_TrieTraverser (trie p) (store p)) e0
      = Some (Continue, trav1, e1) ∧
    value e1 = lit "a.be" ∧
    loop_body h 3 1 trav1 e1 = Some (Continue, trav2, e1) ∧
    loop_body h 3 0 trav2 e1 = Some (Continue, trav3, e3) ∧
    value e3 = lit "Ye" ∧
    processInput (focus e0 p) = Some (focus e3 p).
Proof.
  intros p h e0. eexists _, _, _, _, _.
  split; [vm_compute; reflexivity|]. split; [reflexivity|].
  split; [vm_compute; reflexivity|]. split; [vm_compute; reflexivity|].
  split; [reflexivity|]. by vm_compute.
Qed.

(** C2, as stated, fails: with [b -> X] and [ab -> Y] loaded and the text
    [ab], the first pass reaches the leaf of [b], which is preceded by the
    alphanumeric [a]; the scan goes on and replaces [ab]. *)
Lemma C2_counterexample :
  ¬ ∀ h cp pos trav trav' element char res,
      value element !! pos = Some char →
      traverse (char_toLowerCase char) trav h = Some (res, trav') →
      couldTraverse res = true → res_isLeaf res = Some true →
      at_word_boundary element pos = false →
      processInput_loop h cp (S pos) trav element = Some element.
Proof.
  intros H.
  pose (p := loaded [("b", "X"); ("ab", "Y")]).
  specialize (H (heap (store p)) 2 1 (new_TrieTraverser (trie p) (store p))
                (mkTraverser (Some 2)) (input_at (lit "ab") 2) "b"%char
                (mkResult true (Some true) (Some (lit "X")))).
  vm_compute in H. by specialize (H eq_refl eq_refl eq_refl eq_refl eq_refl).
Qed.

(** C2, amended: when a pass of the backward scan reaches a terminal node
    whose boundary check fails, that pass applies no replacement and leaves
    the field as it is, and the scan continues one character further back
    from that terminal node. *)
Theorem C2_failed_boundary_continues (h : list TrieNode) (cp pos : nat)
    (trav trav' : TrieTraverser) (element : Element) (char : ascii)
    (res : TraverseResult) :
  value element !! pos = Some char →
  traverse (char_toLowerCase char) trav h = Some (res, trav') →
  couldTraverse res = true → res_isLeaf res = Some true →
  at_word_boundary element pos = false →
  loop_body h cp pos trav element = Some (Continue, trav', element) ∧
  processInput_loop h cp (S pos) trav element
    = processInput_loop h cp pos trav' element.
Proof.
  intros Hchar Htr Hct Hleaf Hb.
  pose proof (loop_body_no_boundary _ cp _ _ _ _ _ _ Hchar Htr Hct Hleaf Hb)
    as Hbody.
  split; [done|]. simpl. by rewrite Hbody.
Qed.

Lemma C2_failed_boundary_continues_witness :
  let p := loaded [("b", "X"); ("ab", "Y")] in
  let h := heap (store p) in
  let element := input_at (lit "ab") 2 in
  loop_body h 2 1 (new_TrieTraverser (trie p) (store p)) element
    = Some (Continue, mkTraverser (Some 2), element) ∧
  processInput_loop h 2 2 (new_TrieTraverser (trie p) (store p)) element
    = processInput_loop h 2 1 (mkTraverser (Some 2)) element.
Proof.
  apply (C2_failed_boundary_continues
           (heap (store (loaded [("b", "X"); ("ab", "Y")]))) 2 1
           (new_TrieTraverser (trie (loaded [("b", "X"); ("ab", "Y")]))
                              (store (loaded [("b", "X"); ("ab", "Y")])))
           (mkTraverser (Some 2)) (input_at (lit "ab") 2) "b"%char
           (mkResult true (Some true) (Some (lit "X"))));
    by vm_compute.
Defined.

(** C3, as stated, fails: the run does not leave the cursor at offset 18. *)
Lemma C3_counterexample :
  ¬ ∃ p, run [("brb", "be right back")] "hey brb" 7 = Some p ∧
         field_text p = Some (lit "hey be right back") ∧
         field_cursor p = Some (18, 18).
Proof.
  intros (p & Hrun & _ & Hcur). vm_compute in Hrun. injection Hrun as <-.
  vm_compute in Hcur. done.
Qed.

(** C3, amended: with [brb -> be right back] loaded, [processInput] on the
    text [hey brb] with the cursor at offset 7 yields the text
    [hey be right back] with a collapsed selection at offset 17, which is
    the length of [before] plus the length of [replacement]. *)
Theorem C3_brb_expansion :
  ∃ p, run [("brb", "be right back")] "hey brb" 7 = Some p ∧
       field_text p = Some (lit "hey be right back") ∧
       field_cursor p = Some (17, 17) ∧
       17 = length (take 4 (lit "hey brb")) + length (lit "be right back").
Proof. eexists. split; [vm_compute; reflexivity|]. by vm_compute. Qed.

(** C4: a non-empty key [k] added with value [v], and not added again by
    the later [add] calls, is found by a fresh traverser: stepping through
    the characters of [k] reports [couldTraverse = true] at every step and,
    at the last one, [isLeaf = true] with [data = v]. *)
Theorem C4_inserted_key_is_found (σ : Store) (t : nat) (k v : list ascii)
    (later : list (list ascii * list ascii)) :
  wf_store σ → t < length (tries σ) → k ≠ [] → k ∉ later.*1 →
  ∃ σ1 σ2 rs,
    Trie_add t k v σ = Some σ1 ∧ Trie_add_all t later σ1 = Some σ2 ∧
    traverse_all k (new_TrieTraverser t σ2) (heap σ2) = Some rs ∧
    length rs = length k ∧
    Forall (λ r, couldTraverse r = true) rs ∧
    last rs = Some (mkResult true (Some true) (Some v)).
Proof.
  intros Hwf Ht Hk Hlater.
  destruct (proj2 Hwf t Ht) as (r & Hr & _).
  destruct (Trie_add_spec σ t r k v Hwf Hr)
    as (σ1 & Hadd & Hwf1 & Htr1 & Hpr1 & Hobs1).
  assert (get_root t σ1 = Some r) as Hr1.
  { unfold get_root in *. by rewrite Htr1, Hpr1. }
  destruct (Trie_add_all_spec later σ1 t r Hwf1 Hr1)
    as (σ2 & Hall & Hwf2 & Htr2 & Hpr2 & Hobs2).
  assert (get_root t σ2 = Some r) as Hr2.
  { unfold get_root in *. by rewrite Htr2, Hpr2. }
  exists σ1, σ2, (results (obs (heap σ2) r) [] k).
  split; [done|]. split; [done|].
  split; [by apply traverse_all_root|]. split; [apply results_length|].
  destruct (results_path (obs (heap σ2) r) k []) as [Hall' Hlast].
  { intros x Hx Hpre. simpl. rewrite Hobs2. apply adds_spec_is_Some.
    rewrite Hobs1. by apply add_spec_prefix. }
  split; [done|]. rewrite Hlast by done. simpl. rewrite Hobs2.
  rewrite (adds_spec_other later _ k (true, Some v)); [done|done|].
  rewrite Hobs1. by apply add_spec_key.
Qed.

Lemma C4_inserted_key_is_found_witness :
  ∃ σ1 σ2 rs,
    Trie_add 0 (lit "brb") (lit "be right back") (new_Trie empty_store).2 = Some σ1 ∧
    Trie_add_all 0 [(lit "omw", lit "on my way"); (lit "br", lit "bedroom")] σ1
      = Some σ2 ∧
    traverse_all (lit "brb") (new_TrieTraverser 0 σ2) (heap σ2) = Some rs ∧
    length rs = 3 ∧
    Forall (λ r, couldTraverse r = true) rs ∧
    last rs = Some (mkResult true (Some true) (Some (lit "be right back"))).
Proof.
  apply (C4_inserted_key_is_found (new_Trie empty_store).2 0 (lit "brb")
           (lit "be right back")
           [(lit "omw", lit "on my way"); (lit "br", lit "bedroom")]).
  - apply wf_store_first_trie.
  - simpl. lia.
  - done.
  - simpl. apply (bool_decide_unpack _). vm_compute. exact I.
Defined.

(** C5: for ASCII text, when a match is applied, the stored expansion is
    inserted between [before] and [after] with its first character
    upper-cased (and the rest unchanged) if the character at [matchStart] was
    upper case, and verbatim otherwise; the test of the code,
    [char != char.toLowerCase()], holds exactly of the upper-case letters.
    The character at [matchStart] and the first character of the expansion
    are assumed to be ASCII.  With [omw -> on my way], the text [Omw] with
    the cursor at offset 3 becomes [On my way]. *)
Theorem C5_capitalization :
  (∀ h cp pos trav trav' element char stored,
     value element !! pos = Some char →
     traverse (char_toLowerCase char) trav h
       = Some (mkResult true (Some true) (Some stored), trav') →
     at_word_boundary element pos = true →
     is_ascii char = true →
     (∀ c rest, stored = c :: rest → is_ascii c = true) →
     ∃ element' replacement,
       loop_body h cp pos trav element = Some (Continue, trav', element') ∧
       value element'
         = take pos (value element) ++ replacement ++ drop cp (value element) ∧
       (char ≠ char_toLowerCase char ↔ is_upper char = true) ∧
       (is_upper char = false → replacement = stored) ∧
       (is_upper char = true →
          replacement = match stored with
                        | [] => []
                        | c :: rest => char_toUpperCase c :: rest
                        end)) ∧
  field_text <$> run [("omw", "on my way")] "Omw" 3
    = Some (Some (lit "On my way")).
Proof.
  split; [|by vm_compute].
  intros h cp pos trav trav' element char stored Hchar Htr Hb _ _.
  rewrite (loop_body_match _ _ _ _ _ _ _ _ Hchar Htr Hb). simpl.
  eexists _, _. split; [done|]. split; [done|]. split.
  - pose proof (changed_by_toLowerCase char) as Hc.
    destruct (is_upper char); simpl in Hc.
    + apply bool_decide_eq_false in Hc. split; [reflexivity | intros _; exact Hc].
    + apply bool_decide_eq_true in Hc. split; [intros Hn; destruct (Hn Hc) | discriminate].
  - destruct (is_upper char); split; done.
Qed.

Lemma C5_capitalization_witness :
  let h := [mkTrieNode {["o"%char := 1]} false None;
            mkTrieNode ∅ true (Some (lit "on"))] in
  ∃ element' replacement,
    loop_body h 1 0 (mkTraverser (Some 0)) (input_at (lit "O") 1)
      = Some (Continue, mkTraverser (Some 1), element') ∧
    value element' = take 0 (lit "O") ++ replacement ++ drop 1 (lit "O") ∧
    ("O"%char ≠ char_toLowerCase "O" ↔ is_upper "O" = true) ∧
    (is_upper "O" = false → replacement = lit "on") ∧
    (is_upper "O" = true → replacement = lit "On").
Proof.
  apply (proj1 C5_capitalization
           [mkTrieNode {["o"%char := 1]} false None;
            mkTrieNode ∅ true (Some (lit "on"))]
           1 0 (mkTraverser (Some 0)) (mkTraverser (Some 1))
           (input_at (lit "O") 1) "O"%char (lit "on"));
    try reflexivity.
  intros c rest Heq. injection Heq as <- _. reflexivity.
Defined.

(** C6: for a payload with fewer than 4 cells or an odd number of cells,
    [parseData] returns the empty mapping and logs the error, and
    [handleDataResponse] still clears the trie: afterwards no [traverse]
    call of a fresh traverser succeeds, whatever was known before, and
    [processInput] leaves every field as it is. *)
Theorem C6_invalid_payload_blanks_trie (p : Page) (entry : list (list ascii)) :
  trie p < length (tries (store p)) →
  length entry < 4 ∨ length entry mod 2 ≠ 0 →
  parseData entry (console p) = ([], console p ++ [invalid_configuration]) ∧
  ∃ p', handleDataResponse entry p = Some p' ∧
    console p' = console p ++ [invalid_configuration] ∧
    (∀ cs, traverse_all cs (new_TrieTraverser (trie p') (store p'))
             (heap (store p'))
           = Some (replicate (length cs) no_traverse)) ∧
    (∀ element, selectionStart element ≤ length (value element) →
       processInput (focus element p') = Some (focus element p')).
Proof.
  intros Ht Hbad.
  assert (parseData entry (console p)
          = ([], console p ++ [invalid_configuration])) as Hparse.
  { unfold parseData.
    destruct (length entry <? 4) eqn:H4; [reflexivity|].
    destruct (length entry mod 2 =? 0) eqn:H2; [|reflexivity].
    apply Nat.ltb_ge in H4. apply Nat.eqb_eq in H2. lia. }
  split; [done|]. unfold handleDataResponse. rewrite Hparse. simpl.
  eexists. split; [done|]. simpl. split; [done|].
  assert (get_root (trie p) (Trie_clear (trie p) (store p))
          = Some (length (heap (store p)))) as Hroot
    by (by apply get_root_clear).
  assert ((heap (store p) ++ [new_TrieNode]) !! length (heap (store p))
          = Some new_TrieNode) as Hfresh.
  { rewrite lookup_app_r by lia. by rewrite Nat.sub_diag. }
  split.
  - intros cs. unfold new_TrieTraverser. rewrite Hroot.
    by apply traverse_all_fresh.
  - intros element Hsel. unfold processInput, focus. simpl.
    destruct (isEditableElement element); simpl; [|done].
    unfold new_TrieTraverser. rewrite Hroot.
    by rewrite (processInput_loop_fresh _ _ _ Hfresh Hsel).
Qed.

Lemma C6_invalid_payload_blanks_trie_witness :
  let entry := [lit "Abbreviation"; lit "Debreviation"; lit "brb"] in
  parseData entry (console (loaded [("brb", "be right back")]))
    = ([], console (loaded [("brb", "be right back")]) ++ [invalid_configuration]) ∧
  ∃ p', handleDataResponse entry (loaded [("brb", "be right back")]) = Some p' ∧
    console p' = console (loaded [("brb", "be right back")]) ++ [invalid_configuration] ∧
    (∀ cs, traverse_all cs (new_TrieTraverser (trie p') (store p'))
             (heap (store p'))
           = Some (replicate (length cs) no_traverse)) ∧
    (∀ element, selectionStart element ≤ length (value element) →
       processInput (focus element p') = Some (focus element p')).
Proof.
  apply (C6_invalid_payload_blanks_trie (loaded [("brb", "be right back")])
           [lit "Abbreviation"; lit "Debreviation"; lit "brb"]).
  - vm_compute. lia.
  - right. vm_compute. lia.
Defined.

(** C7, as stated, fails: adding the empty key to a new trie does not make
    the node under a fresh traverser terminal. *)
Lemma C7_counterexample :
  ¬ ∀ (σ : Store) (t : nat) (v : list ascii),
      wf_store σ → t < length (tries σ) →
      ∃ σ', Trie_add t [] v σ = Some σ' ∧
            cursor_ (new_TrieTraverser t σ') ≫= content (heap σ')
            = Some (true, Some v).
Proof.
  intros H.
  destruct (H (new_Trie empty_store).2 0 (lit "x") wf_store_first_trie)
    as (σ' & Hadd & Hcur); [simpl; lia|].
  vm_compute in Hadd. injection Hadd as <-. vm_compute in Hcur. done.
Qed.

(** C7, amended: [add] with the empty key never enters its loop and leaves
    the store as it is; the root keeps its [isLeaf] and [data], so on a
    newly constructed trie the node under a fresh traverser is still
    unmarked and without data. *)
Theorem C7_empty_key_is_noop (σ : Store) (t : nat) (v : list ascii) :
  Trie_add t [] v σ = Some σ ∧
  Trie_add (new_Trie σ).1 [] v (new_Trie σ).2 = Some (new_Trie σ).2 ∧
  cursor_ (new_TrieTraverser (new_Trie σ).1 (new_Trie σ).2)
    ≫= content (heap (new_Trie σ).2)
  = Some (false, None).
Proof.
  assert (∀ σ' t', Trie_add t' [] v σ' = Some σ') as Hnoop.
  { intros σ' t'. unfold Trie_add.
    destruct (get_root t' σ'); [|done]. simpl. by destruct σ'. }
  split; [done|]. split; [done|].
  unfold new_TrieTraverser. rewrite get_root_new_Trie. simpl.
  unfold content. rewrite lookup_app_r by lia. by rewrite Nat.sub_diag.
Qed.

(** C8: take an empty trie (its root was just allocated by the constructor
    or by [clear]) and build it from the pairs [l1]; then [clear] it and
    insert the same pairs again, [l2], in the same order or, when the keys
    are pairwise distinct, in any order.  Both builds succeed and every
    sequence of [traverse] calls on a fresh traverser yields the same
    results on the original and on the rebuilt trie. *)
Theorem C8_clear_and_reinsert (σ0 : Store) (t r : nat)
    (l1 l2 : list (list ascii * list ascii)) :
  wf_store σ0 → get_root t σ0 = Some r → heap σ0 !! r = Some new_TrieNode →
  l2 = l1 ∨ (l1 ≡ₚ l2 ∧ NoDup l1.*1) →
  ∃ σ1 σ2,
    Trie_add_all t l1 σ0 = Some σ1 ∧
    Trie_add_all t l2 (Trie_clear t σ1) = Some σ2 ∧
    ∀ cs, ∃ rs,
      traverse_all cs (new_TrieTraverser t σ1) (heap σ1) = Some rs ∧
      traverse_all cs (new_TrieTraverser t σ2) (heap σ2) = Some rs.
Proof.
  intros Hwf0 Hr0 Hfresh Hsame.
  destruct (Trie_add_all_spec l1 σ0 t r Hwf0 Hr0)
    as (σ1 & Hall1 & Hwf1 & Htr1 & Hpr1 & Hobs1).
  assert (get_root t σ1 = Some r) as Hr1.
  { unfold get_root in *. by rewrite Htr1, Hpr1. }
  assert (t < length (tries σ1)) as Ht.
  { unfold get_root in Hr1. destruct (tries σ1 !! t) eqn:E; [|done].
    by apply lookup_lt_Some in E. }
  pose proof (wf_store_clear σ1 t Hwf1) as Hwfc.
  pose proof (get_root_clear σ1 t Ht) as Hrc.
  destruct (Trie_add_all_spec l2 _ t _ Hwfc Hrc)
    as (σ2 & Hall2 & Hwf2 & Htr2 & Hpr2 & Hobs2).
  assert (get_root t σ2 = Some (length (heap σ1))) as Hr2.
  { unfold get_root in *. by rewrite Htr2, Hpr2. }
  exists σ1, σ2. split; [done|]. split; [done|]. intros cs.
  exists (results (obs (heap σ1) r) [] cs).
  split; [by apply traverse_all_root|].
  rewrite (traverse_all_root σ2 t _ cs Hwf2 Hr2). f_equal.
  apply results_ext. intros p. rewrite Hobs1, Hobs2.
  rewrite (adds_spec_ext l1 _ empty_obs) by (intros; by apply obs_fresh).
  rewrite (adds_spec_ext l2 _ empty_obs).
  - destruct Hsame as [->|[Hperm Hnd]]; [done|].
    symmetry. by apply adds_spec_perm.
  - intros p'. apply obs_fresh. simpl. rewrite lookup_app_r by lia.
    by rewrite Nat.sub_diag.
Qed.

Lemma C8_clear_and_reinsert_witness :
  ∃ σ1 σ2,
    Trie_add_all 0 [(lit "brb", lit "be right back"); (lit "omw", lit "on my way")]
      (new_Trie empty_store).2 = Some σ1 ∧
    Trie_add_all 0 [(lit "omw", lit "on my way"); (lit "brb", lit "be right back")]
      (Trie_clear 0 σ1) = Some σ2 ∧
    ∀ cs, ∃ rs,
      traverse_all cs (new_TrieTraverser 0 σ1) (heap σ1) = Some rs ∧
      traverse_all cs (new_TrieTraverser 0 σ2) (heap σ2) = Some rs.
Proof.
  apply (C8_clear_and_reinsert (new_Trie empty_store).2 0 0).
  - apply wf_store_first_trie.
  - reflexivity.
  - reflexivity.
  - right. split.
    + apply Permutation_swap.
    + simpl. apply (bool_decide_unpack _). vm_compute. exact I.
Defined.

(** C9: a [traverse] call with a character for which the current node has
    no edge reports [couldTraverse = false] and leaves the traverser as it
    was, so the calls that follow behave as if it had not been made. *)
Theorem C9_failed_traverse_keeps_cursor (h : list TrieNode) (this : TrieTraverser)
    (l : nat) (n : TrieNode) (c : ascii) :
  cursor_ this = Some l → h !! l = Some n → edges n !! c = None →
  traverse c this h = Some (no_traverse, this) ∧
  couldTraverse no_traverse = false ∧
  ∀ cs, traverse_all (c :: cs) this h
        = (λ rs, no_traverse :: rs) <$> traverse_all cs this h.
Proof.
  intros Hcur Hn Hc.
  assert (traverse c this h = Some (no_traverse, this)) as Htr.
  { unfold traverse. rewrite Hcur. simpl. rewrite Hn. simpl. by rewrite Hc. }
  split; [done|]. split; [done|]. intros cs. simpl. rewrite Htr. simpl.
  by destruct (traverse_all cs this h).
Qed.

Lemma C9_failed_traverse_keeps_cursor_witness :
  traverse "x" (mkTraverser (Some 0)) [new_TrieNode]
    = Some (no_traverse, mkTraverser (Some 0)) ∧
  couldTraverse no_traverse = false ∧
  ∀ cs, traverse_all ("x"%char :: cs) (mkTraverser (Some 0)) [new_TrieNode]
        = (λ rs, no_traverse :: rs)
            <$> traverse_all cs (mkTraverser (Some 0)) [new_TrieNode].
Proof.
  apply (C9_failed_traverse_keeps_cursor [new_TrieNode] (mkTraverser (Some 0))
           0 new_TrieNode "x"); reflexivity.
Defined.

(** C10: the constructor writes the new root node to [Trie.prototype] and
    gives the instance no root of its own, so instances that were never
    cleared read the same root.  After [t1 = new Trie(); t1.add(k, v);
    t2 = new Trie()], [t1] and [t2] read the same, empty root and no
    [traverse] call of a fresh traverser over [t1] succeeds, although [k]
    was found before [t2] was constructed.  After [t1.clear()] the instance
    has its own root, which a later [new Trie()] leaves alone: [k] added
    then is still found. *)
Theorem C10_prototype_root_is_shared (σ : Store) (k v : list ascii) :
  wf_store σ → k ≠ [] →
  let t1 := (new_Trie σ).1 in
  let σ1 := (new_Trie σ).2 in
  tries σ1 !! t1 = Some None ∧
  proto_root σ1 = Some (length (heap σ)) ∧
  (∀ σ' t, tries σ' !! t = Some None → get_root t σ' = proto_root σ') ∧
  (∃ σ2, Trie_add t1 k v σ1 = Some σ2 ∧
     (∃ rs, traverse_all k (new_TrieTraverser t1 σ2) (heap σ2) = Some rs ∧
            last rs = Some (mkResult true (Some true) (Some v))) ∧
     let t2 := (new_Trie σ2).1 in
     let σ3 := (new_Trie σ2).2 in
     t1 ≠ t2 ∧ get_root t1 σ3 = get_root t2 σ3 ∧
     ∀ cs, traverse_all cs (new_TrieTraverser t1 σ3) (heap σ3)
           = Some (replicate (length cs) no_traverse)) ∧
  (let σ1c := Trie_clear t1 σ1 in
   tries σ1c !! t1 = Some (Some (length (heap σ1))) ∧
   ∃ σ2c, Trie_add t1 k v σ1c = Some σ2c ∧
     let σ3c := (new_Trie σ2c).2 in
     get_root t1 σ3c = Some (length (heap σ1)) ∧
     ∃ rs, traverse_all k (new_TrieTraverser t1 σ3c) (heap σ3c) = Some rs ∧
           last rs = Some (mkResult true (Some true) (Some v))).
Proof.
  intros Hwf Hk t1 σ1.
  pose proof (wf_store_new_Trie σ Hwf) as Hwf1. fold σ1 in Hwf1.
  pose proof (get_root_new_Trie σ) as Hr1. fold t1 σ1 in Hr1.
  assert (tries σ1 !! t1 = Some None) as Hown.
  { subst t1 σ1. simpl. rewrite lookup_app_r by lia. by rewrite Nat.sub_diag. }
  split; [done|]. split; [done|]. split.
  { intros σ' t Ht. unfold get_root. by rewrite Ht. }
  split.
  - destruct (found_after_add σ1 t1 _ k v Hwf1 Hr1 Hk)
      as (σ2 & Hadd & Hwf2 & Htr2 & Hpr2 & Hobs & Hpre).
    assert (get_root t1 σ2 = Some (length (heap σ))) as Hr2.
    { unfold get_root in *. by rewrite Htr2, Hpr2. }
    exists σ2. split; [done|].
    split; [by eapply last_result_found|].
    assert (length (tries σ2) = S t1) as Hlen.
    { rewrite Htr2. subst t1 σ1. simpl. rewrite length_app. simpl. lia. }
    assert (get_root t1 (new_Trie σ2).2 = Some (length (heap σ2))) as Hr3.
    { unfold get_root. simpl. rewrite lookup_app_l by lia.
      by rewrite Htr2, Hown. }
    split; [simpl; lia|]. split; [by rewrite get_root_new_Trie|].
    intros cs. unfold new_TrieTraverser. rewrite Hr3.
    apply traverse_all_fresh. simpl. rewrite lookup_app_r by lia.
    by rewrite Nat.sub_diag.
  - assert (t1 < length (tries σ1)) as Ht1 by (by eapply lookup_lt_Some).
    split; [simpl; by rewrite list_lookup_insert_eq|].
    pose proof (wf_store_clear σ1 t1 Hwf1) as Hwfc.
    pose proof (get_root_clear σ1 t1 Ht1) as Hrc.
    destruct (found_after_add _ t1 _ k v Hwfc Hrc Hk)
      as (σ2c & Hadd & Hwf2 & Htr2 & Hpr2 & Hobs & Hpre).
    exists σ2c. split; [done|].
    pose proof (wf_store_new_Trie σ2c Hwf2) as Hwf3.
    assert (get_root t1 σ2c = Some (length (heap σ1))) as Hr2.
    { unfold get_root in *. by rewrite Htr2, Hpr2. }
    pose proof (get_root_lt _ _ _ Hwf2 Hr2) as Hlt.
    assert (get_root t1 (new_Trie σ2c).2 = Some (length (heap σ1))) as Hr3.
    { unfold get_root. simpl. rewrite Htr2. simpl.
      rewrite lookup_app_l by (by rewrite length_insert).
      by rewrite list_lookup_insert_eq. }
    split; [done|].
    apply (last_result_found _ t1 (length (heap σ1)) k v); try done.
    + simpl. rewrite obs_alloc; [done|by destruct Hwf2|done].
    + intros x Hx Hx'. simpl. rewrite obs_alloc; [auto|by destruct Hwf2|done].
Qed.

Lemma C10_prototype_root_is_shared_witness :
  let σ := empty_store in
  let k := lit "brb" in
  let v := lit "be right back" in
  let t1 := (new_Trie σ).1 in
  let σ1 := (new_Trie σ).2 in
  tries σ1 !! t1 = Some None ∧
  proto_root σ1 = Some (length (heap σ)) ∧
  (∀ σ' t, tries σ' !! t = Some None → get_root t σ' = proto_root σ') ∧
  (∃ σ2, Trie_add t1 k v σ1 = Some σ2 ∧
     (∃ rs, traverse_all k (new_TrieTraverser t1 σ2) (heap σ2) = Some rs ∧
            last rs = Some (mkResult true (Some true) (Some v))) ∧
     let t2 := (new_Trie σ2).1 in
     let σ3 := (new_Trie σ2).2 in
     t1 ≠ t2 ∧ get_root t1 σ3 = get_root t2 σ3 ∧
     ∀ cs, traverse_all cs (new_TrieTraverser t1 σ3) (heap σ3)
           = Some (replicate (length cs) no_traverse)) ∧
  (let σ1c := Trie_clear t1 σ1 in
   tries σ1c !! t1 = Some (Some (length (heap σ1))) ∧
   ∃ σ2c, Trie_add t1 k v σ1c = Some σ2c ∧
     let σ3c := (new_Trie σ2c).2 in
     get_root t1 σ3c = Some (length (heap σ1)) ∧
     ∃ rs, traverse_all k (new_TrieTraverser t1 σ3c) (heap σ3c) = Some rs ∧
           last rs = Some (mkResult true (Some true) (Some v))).
Proof.
  apply (C10_prototype_root_is_shared empty_store (lit "brb") (lit "be right back")).
  - apply wf_store_empty.
  - done.
Defined.

(** * Further properties of the code *)

Section invariant.
Implicit Types (σ : Store) (h : list TrieNode) (n : TrieNode)
  (k v : list ascii) (c : ascii).

Lemma node_ok_new : node_ok new_TrieNode.
Proof. split; simpl; [discriminate|intros [? ?]; discriminate]. Qed.

Lemma node_ok_set_edge c l n : node_ok n → node_ok (set_edge c l n).
Proof. done. Qed.

Lemma node_ok_set_leaf v n : node_ok (set_leaf v n).
Proof. split; simpl; [by eexists|done]. Qed.

Lemma ensure_edge_node_ok h cur c next h1 :
  Forall node_ok h → ensure_edge cur c h = Some (next, h1) → Forall node_ok h1.
Proof.
  intros Hok. unfold ensure_edge.
  destruct (h !! cur) as [n|] eqn:Hn; [|done]. simpl.
  destruct (edges n !! c) as [l'|] eqn:He.
  - rewrite Hn. simpl. rewrite He. simpl. by intros [= _ <-].
  - rewrite attach_lookup by (by eapply lookup_lt_Some).
    rewrite decide_True by done. simpl. rewrite lookup_insert_eq. simpl.
    intros [= _ <-]. unfold attach. apply Forall_insert.
    + apply Forall_app. split; [done|]. constructor; [apply node_ok_new|done].
    + apply node_ok_set_edge. by eapply Forall_lookup_1.
Qed.

Lemma mark_last_node_ok h1 next rest v h2 :
  Forall node_ok h1 → mark_last next rest v h1 = Some h2 → Forall node_ok h2.
Proof.
  intros Hok. unfold mark_last. destruct rest.
  - destruct (h1 !! next) as [n|]; [|done]. simpl. intros [= <-].
    apply Forall_insert; [done|apply node_ok_set_leaf].
  - by intros [= <-].
Qed.

Lemma add_loop_node_ok k : ∀ cur h v h',
  Forall node_ok h → add_loop cur k v h = Some h' → Forall node_ok h'.
Proof.
  induction k as [|c k IH]; intros cur h v h' Hok.
  { by intros [= <-]. }
  rewrite add_loop_cons.
  destruct (ensure_edge cur c h) as [[next h1]|] eqn:E1; [|done]. simpl.
  destruct (mark_last next k v h1) as [h2|] eqn:E2; [|done]. simpl.
  apply IH. eapply mark_last_node_ok; [|done].
  by eapply ensure_edge_node_ok.
Qed.

Lemma good_store_empty : good_store empty_store.
Proof. split; [apply wf_store_empty|constructor]. Qed.

Lemma good_store_new_Trie σ : good_store σ → good_store (new_Trie σ).2.
Proof.
  intros [Hwf Hok]. split; [by apply wf_store_new_Trie|]. simpl.
  apply Forall_app. split; [done|]. constructor; [apply node_ok_new|done].
Qed.

Lemma good_store_clear σ t : good_store σ → good_store (Trie_clear t σ).
Proof.
  intros [Hwf Hok]. split; [by apply wf_store_clear|]. simpl.
  apply Forall_app. split; [done|]. constructor; [apply node_ok_new|done].
Qed.

Lemma good_store_add σ t k v :
  good_store σ → t < length (tries σ) →
  ∃ σ', Trie_add t k v σ = Some σ' ∧ good_store σ' ∧
        tries σ' = tries σ ∧ proto_root σ' = proto_root σ.
Proof.
  intros [Hwf Hok] Ht. destruct (proj2 Hwf t Ht) as (r & Hr & _).
  destruct (Trie_add_spec σ t r k v Hwf Hr)
    as (σ' & Hadd & Hwf' & Htr & Hpr & _).
  exists σ'. split_and!; try done. split; [done|].
  unfold Trie_add in Hadd. rewrite Hr in Hadd.
  destruct (add_loop r k v (heap σ)) as [h'|] eqn:E; [|done].
  simpl in Hadd. injection Hadd as <-. simpl.
  by eapply add_loop_node_ok.
Qed.

End invariant.

Section dictionary.
Implicit Types (σ : Store) (h : list TrieNode) (p q k v cs : list ascii)
  (c : ascii) (kvs : list (list ascii * list ascii))
  (f g : list ascii → option (bool * option (list ascii))).

Lemma adds_spec_app kvs1 kvs2 f p :
  adds_spec (kvs1 ++ kvs2) f p = adds_spec kvs2 (adds_spec kvs1 f) p.
Proof. unfold adds_spec. by rewrite foldl_app. Qed.

Lemma adds_spec_snoc kvs k v f p :
  adds_spec (kvs ++ [(k, v)]) f p = add_spec k v (adds_spec kvs f) p.
Proof. by rewrite adds_spec_app. Qed.

(** The value written last for a key is the one observed. *)
Lemma adds_spec_last kvs1 k v kvs2 f :
  k ≠ [] → k ∉ kvs2.*1 →
  adds_spec (kvs1 ++ (k, v) :: kvs2) f k = Some (true, Some v).
Proof.
  intros Hk Hlater. rewrite adds_spec_app. simpl.
  apply adds_spec_other; [done|]. by apply add_spec_key.
Qed.

Lemma adds_spec_prefix_in kvs k v f x :
  (k, v) ∈ kvs → x ≠ [] → x `prefix_of` k → is_Some (adds_spec kvs f x).
Proof.
  intros (kvs1 & kvs2 & ->)%list_elem_of_split Hx Hpre.
  rewrite adds_spec_app. simpl. apply adds_spec_is_Some.
  by apply add_spec_prefix.
Qed.

Lemma last_occurrence kvs k :
  k ∈ kvs.*1 → ∃ kvs1 v kvs2, kvs = kvs1 ++ (k, v) :: kvs2 ∧ (k ∉ kvs2.*1).
Proof.
  induction kvs as [|[k' v'] kvs IH]; simpl; [by intros ?%elem_of_nil|].
  intros Hin. destruct (decide (k ∈ kvs.*1)) as [Hlater|Hlater].
  - destruct (IH Hlater) as (kvs1 & v & kvs2 & -> & Hnot).
    by exists ((k', v') :: kvs1), v, kvs2.
  - apply elem_of_cons in Hin as [->|?]; [|done].
    by exists [], v', kvs.
Qed.

(** Below a root that started empty, only prefixes of the inserted keys
    exist, only inserted keys are marked, and the root itself never is. *)
Lemma adds_spec_empty_sound kvs p b d :
  adds_spec kvs empty_obs p = Some (b, d) →
  (p = [] ∨ ∃ k, k ∈ kvs.*1 ∧ p `prefix_of` k) ∧
  (b = true → p ≠ [] ∧ p ∈ kvs.*1) ∧
  (b = false → d = None).
Proof.
  revert p b d. induction kvs as [|[k v] kvs IH] using rev_ind; intros p b d.
  - simpl. unfold empty_obs. case_decide; [|done]. intros [= <- <-].
    split_and!; [by left|done|done].
  - rewrite adds_spec_snoc, fmap_app. simpl. unfold add_spec.
    case_decide as Hk.
    + destruct Hk as [Hk ->]. intros [= <- <-]. split_and!; try done.
      * right. exists k. split; [|done]. apply elem_of_app. right. by left.
      * intros _. split; [done|]. apply elem_of_app. right. by left.
    + case_decide as Hpre.
      * destruct Hpre as [Hp Hpre].
        assert (p = [] ∨ ∃ k0, k0 ∈ kvs.*1 ++ [k] ∧ p `prefix_of` k0) as Hex.
        { right. exists k. split; [|done]. apply elem_of_app. right. by left. }
        destruct (adds_spec kvs empty_obs p) as [[b' d']|] eqn:E; simpl.
        -- intros [= <- <-]. destruct (IH _ _ _ E) as (_ & Hleaf & Hnl).
           split_and!; [done| |done].
           intros Hb. destruct (Hleaf Hb) as [? Hin]. split; [done|].
           apply elem_of_app. by left.
        -- intros [= <- <-]. by split_and!.
      * intros E. destruct (IH _ _ _ E) as (Hex & Hleaf & Hnl).
        split_and!; [|  |done].
        -- destruct Hex as [?|(k0 & Hin & Hk0)]; [by left|]. right.
           exists k0. split; [|done]. apply elem_of_app. by left.
        -- intros Hb. destruct (Hleaf Hb) as [? Hin]. split; [done|].
           apply elem_of_app. by left.
Qed.

Lemma adds_spec_empty_leaf kvs p d :
  adds_spec kvs empty_obs p = Some (true, d) →
  ∃ kvs1 v kvs2, kvs = kvs1 ++ (p, v) :: kvs2 ∧ (p ∉ kvs2.*1) ∧ d = Some v.
Proof.
  intros E. destruct (adds_spec_empty_sound _ _ _ _ E) as (_ & Hleaf & _).
  destruct (Hleaf eq_refl) as [Hp Hin].
  destruct (last_occurrence _ _ Hin) as (kvs1 & v & kvs2 & -> & Hnot).
  exists kvs1, v, kvs2. split; [done|]. split; [done|].
  rewrite adds_spec_last in E by done. by injection E as <-.
Qed.

Lemma result_of_could f p :
  couldTraverse (result_of (f p)) = true ↔ is_Some (f p).
Proof.
  destruct (f p) as [[b d]|]; simpl.
  - split; [by eexists|done].
  - split; [done|by intros [? ?]].
Qed.

(** If every call of a run could traverse, every node on the way exists. *)
Lemma results_all_could f cs : ∀ q,
  Forall (λ r, couldTraverse r = true) (results f q cs) →
  ∀ x, x ≠ [] → x `prefix_of` cs → is_Some (f (q ++ x)).
Proof.
  induction cs as [|c cs IH]; intros q Hall x Hx Hpre.
  { by apply prefix_nil_inv in Hpre. }
  simpl in Hall. apply Forall_cons in Hall as [Hc Hall].
  apply result_of_could in Hc as Hsome. destruct Hsome as [y Hy].
  rewrite Hy in Hall. destruct x as [|c' x]; [done|].
  apply prefix_cons_inv_1 in Hpre as Heq. subst c'.
  apply prefix_cons_inv_2 in Hpre.
  destruct x as [|c2 x]; [by rewrite Hy|].
  replace (q ++ c :: c2 :: x) with ((q ++ [c]) ++ c2 :: x)
    by (by rewrite <-app_assoc).
  by apply IH.
Qed.

Lemma results_lookup f cs : ∀ q i,
  (∀ x, x ≠ [] → x `prefix_of` cs → is_Some (f (q ++ x))) →
  i < length cs →
  results f q cs !! i = Some (result_of (f (q ++ take (S i) cs))).
Proof.
  induction cs as [|c cs IH]; intros q i Hpre Hi; [simpl in Hi; lia|].
  simpl. destruct (Hpre [c]) as [y Hy]; [done|apply prefix_cons, prefix_nil|].
  rewrite Hy. destruct i as [|i]; simpl.
  - by rewrite take_0, Hy.
  - rewrite IH.
    + by rewrite <-app_assoc.
    + intros x Hx Hx'. rewrite <-app_assoc. simpl.
      apply Hpre; [done|by apply prefix_cons].
    + simpl in Hi. lia.
Qed.

End dictionary.

(** X1: last write wins.  Whatever was added before, once [k] has been
    added with [v] and is not added again, a fresh traverser stepping
    through [k] always advances and ends on a leaf carrying [v]; an earlier
    value stored for [k] is overwritten. *)
Theorem add_last_write_wins (σ : Store) (t : nat)
    (before later : list (list ascii * list ascii)) (k v : list ascii) :
  wf_store σ → t < length (tries σ) → k ≠ [] → k ∉ later.*1 →
  ∃ σ' rs,
    Trie_add_all t (before ++ (k, v) :: later) σ = Some σ' ∧
    traverse_all k (new_TrieTraverser t σ') (heap σ') = Some rs ∧
    Forall (λ r, couldTraverse r = true) rs ∧
    last rs = Some (found v).
Proof.
  intros Hwf Ht Hk Hlater. destruct (proj2 Hwf t Ht) as (r & Hr & _).
  destruct (Trie_add_all_spec (before ++ (k, v) :: later) σ t r Hwf Hr)
    as (σ' & Hall & Hwf' & Htr & Hpr & Hobs).
  assert (get_root t σ' = Some r) as Hr'.
  { unfold get_root in *. by rewrite Htr, Hpr. }
  exists σ', (results (obs (heap σ') r) [] k).
  split; [done|]. split; [by apply traverse_all_root|].
  destruct (results_path (obs (heap σ') r) k []) as [Hcould Hlast].
  { intros x Hx Hpre. simpl. rewrite Hobs.
    apply (adds_spec_prefix_in _ k v); [|done..].
    apply elem_of_app. right. by left. }
  split; [done|]. rewrite Hlast by done. simpl.
  by rewrite Hobs, adds_spec_last.
Qed.

Lemma add_last_write_wins_witness :
  ∃ σ' rs,
    Trie_add_all 0 ([(lit "brb", lit "bathroom break")]
                    ++ (lit "brb", lit "be right back")
                    :: [(lit "br", lit "bedroom")])
      (new_Trie empty_store).2 = Some σ' ∧
    traverse_all (lit "brb") (new_TrieTraverser 0 σ') (heap σ') = Some rs ∧
    Forall (λ r, couldTraverse r = true) rs ∧
    last rs = Some (found (lit "be right back")).
Proof.
  apply (add_last_write_wins (new_Trie empty_store).2 0
           [(lit "brb", lit "bathroom break")] [(lit "br", lit "bedroom")]
           (lit "brb") (lit "be right back")).
  - apply wf_store_first_trie.
  - simpl. lia.
  - done.
  - simpl. apply (bool_decide_unpack _). vm_compute. exact I.
Defined.

(** X2: a stored key that is a prefix of a longer stored key is reported
    on the way: traversing the longer key [k2], the call that consumes the
    last character of [k1] reports a leaf with [k1]'s value. *)
Theorem prefix_key_reported_first (σ : Store) (t : nat)
    (kvs1 kvs2 : list (list ascii * list ascii)) (k1 v1 k2 v2 : list ascii) :
  wf_store σ → t < length (tries σ) →
  k1 ≠ [] → k1 ∉ kvs2.*1 → k1 `prefix_of` k2 →
  (k2, v2) ∈ kvs1 ++ (k1, v1) :: kvs2 →
  ∃ σ' rs,
    Trie_add_all t (kvs1 ++ (k1, v1) :: kvs2) σ = Some σ' ∧
    traverse_all k2 (new_TrieTraverser t σ') (heap σ') = Some rs ∧
    Forall (λ r, couldTraverse r = true) rs ∧
    rs !! (length k1 - 1) = Some (found v1).
Proof.
  intros Hwf Ht Hk1 Hlater Hpre Hin. destruct (proj2 Hwf t Ht) as (r & Hr & _).
  destruct (Trie_add_all_spec (kvs1 ++ (k1, v1) :: kvs2) σ t r Hwf Hr)
    as (σ' & Hall & Hwf' & Htr & Hpr & Hobs).
  assert (get_root t σ' = Some r) as Hr'.
  { unfold get_root in *. by rewrite Htr, Hpr. }
  assert (∀ x, x ≠ [] → x `prefix_of` k2 → is_Some (obs (heap σ') r ([] ++ x)))
    as Hexists.
  { intros x Hx Hx'. simpl. rewrite Hobs. by eapply adds_spec_prefix_in. }
  exists σ', (results (obs (heap σ') r) [] k2).
  split; [done|]. split; [by apply traverse_all_root|].
  split; [by apply results_path|].
  assert (length k1 ≠ 0) as Hlen by (by destruct k1).
  assert (length k1 ≤ length k2) as Hle by (by apply prefix_length).
  rewrite results_lookup; [|done|lia].
  replace (S (length k1 - 1)) with (length k1) by lia.
  destruct Hpre as [ext ->]. rewrite take_app_length. simpl.
  by rewrite Hobs, adds_spec_last.
Qed.

Lemma prefix_key_reported_first_witness :
  ∃ σ' rs,
    Trie_add_all 0 ([(lit "brb", lit "be right back")]
                    ++ (lit "br", lit "bedroom") :: [])
      (new_Trie empty_store).2 = Some σ' ∧
    traverse_all (lit "brb") (new_TrieTraverser 0 σ') (heap σ') = Some rs ∧
    Forall (λ r, couldTraverse r = true) rs ∧
    rs !! (length (lit "br") - 1) = Some (found (lit "bedroom")).
Proof.
  apply (prefix_key_reported_first (new_Trie empty_store).2 0
           [(lit "brb", lit "be right back")] []
           (lit "br") (lit "bedroom") (lit "brb") (lit "be right back")).
  - apply wf_store_first_trie.
  - simpl. lia.
  - done.
  - simpl. apply not_elem_of_nil.
  - by exists (lit "b").
  - left.
Defined.

(** X3: a trie built on an empty root holds nothing but what was added.
    If every call of a run over [cs] could traverse, [cs] is a prefix of an
    added key; if the last call reports a leaf, [cs] is an added key and the
    data is the value added last for it; a node that is not a leaf carries
    no data. *)
Theorem built_trie_is_exact (σ0 : Store) (t r : nat)
    (kvs : list (list ascii * list ascii)) :
  wf_store σ0 → get_root t σ0 = Some r → heap σ0 !! r = Some new_TrieNode →
  ∃ σ1, Trie_add_all t kvs σ0 = Some σ1 ∧
    ∀ cs rs res,
      traverse_all cs (new_TrieTraverser t σ1) (heap σ1) = Some rs →
      Forall (λ r, couldTraverse r = true) rs → last rs = Some res →
      (∃ k, k ∈ kvs.*1 ∧ cs `prefix_of` k) ∧
      (res_isLeaf res = Some true →
         ∃ kvs1 v kvs2, kvs = kvs1 ++ (cs, v) :: kvs2 ∧ (cs ∉ kvs2.*1) ∧
                        res_data res = Some v) ∧
      (res_isLeaf res = Some false → res_data res = None).
Proof.
  intros Hwf Hr Hfresh.
  destruct (Trie_add_all_spec kvs σ0 t r Hwf Hr)
    as (σ1 & Hall & Hwf1 & Htr & Hpr & Hobs).
  assert (get_root t σ1 = Some r) as Hr1.
  { unfold get_root in *. by rewrite Htr, Hpr. }
  exists σ1. split; [done|]. intros cs rs res Hrun Hcould Hlast.
  rewrite (traverse_all_root σ1 t r cs Hwf1 Hr1) in Hrun.
  injection Hrun as <-.
  destruct cs as [|c cs]; [done|].
  pose proof (results_all_could _ _ _ Hcould) as Hexists.
  destruct (results_path (obs (heap σ1) r) (c :: cs) [] Hexists) as [_ Hl].
  rewrite Hl in Hlast by done. injection Hlast as <-. simpl.
  assert (∀ p, obs (heap σ1) r p = adds_spec kvs empty_obs p) as Hobs'.
  { intros p. rewrite Hobs. apply adds_spec_ext. intros p'.
    by apply obs_fresh. }
  rewrite Hobs'.
  destruct (adds_spec kvs empty_obs (c :: cs)) as [[b d]|] eqn:E.
  - destruct (adds_spec_empty_sound _ _ _ _ E) as (Hex & _ & Hnl).
    simpl. split_and!.
    + by destruct Hex.
    + intros [= ->]. by apply adds_spec_empty_leaf.
    + intros [= ->]. by apply Hnl.
  - destruct (Hexists (c :: cs)) as [y Hy]; [done..|].
    simpl in Hy. rewrite Hobs' in Hy. congruence.
Qed.

Lemma built_trie_is_exact_witness :
  ∃ σ1, Trie_add_all 0 [(lit "brb", lit "be right back")]
          (new_Trie empty_store).2 = Some σ1 ∧
    ∀ cs rs res,
      traverse_all cs (new_TrieTraverser 0 σ1) (heap σ1) = Some rs →
      Forall (λ r, couldTraverse r = true) rs → last rs = Some res →
      (∃ k, k ∈ [(lit "brb", lit "be right back")].*1 ∧ cs `prefix_of` k) ∧
      (res_isLeaf res = Some true →
         ∃ kvs1 v kvs2,
           [(lit "brb", lit "be right back")] = kvs1 ++ (cs, v) :: kvs2 ∧
           (cs ∉ kvs2.*1) ∧ res_data res = Some v) ∧
      (res_isLeaf res = Some false → res_data res = None).
Proof.
  apply (built_trie_is_exact (new_Trie empty_store).2 0 0
           [(lit "brb", lit "be right back")]).
  - apply wf_store_first_trie.
  - reflexivity.
  - reflexivity.
Defined.

Section growth.
Implicit Types (h : list TrieNode) (k v : list ascii) (c : ascii).

Lemma ensure_edge_length h cur c next h1 :
  ensure_edge cur c h = Some (next, h1) →
  length h ≤ length h1 ≤ S (length h).
Proof.
  unfold ensure_edge. destruct (h !! cur) as [n|] eqn:Hn; [|done]. simpl.
  destruct (edges n !! c) as [l'|] eqn:He.
  - rewrite Hn. simpl. rewrite He. simpl. intros [= _ <-]. lia.
  - rewrite attach_lookup by (by eapply lookup_lt_Some).
    rewrite decide_True by done. simpl. rewrite lookup_insert_eq. simpl.
    intros [= _ <-]. rewrite attach_length. lia.
Qed.

Lemma mark_last_length h1 next rest v h2 :
  mark_last next rest v h1 = Some h2 → length h2 = length h1.
Proof.
  unfold mark_last. destruct rest.
  - destruct (h1 !! next); [|done]. simpl. intros [= <-].
    by rewrite length_insert.
  - by intros [= <-].
Qed.

Lemma add_loop_length k : ∀ cur h v h',
  add_loop cur k v h = Some h' →
  length h ≤ length h' ≤ length h + length k.
Proof.
  induction k as [|c k IH]; intros cur h v h'.
  { intros [= <-]. simpl. lia. }
  rewrite add_loop_cons.
  destruct (ensure_edge cur c h) as [[next h1]|] eqn:E1; [|done]. simpl.
  destruct (mark_last next k v h1) as [h2|] eqn:E2; [|done]. simpl.
  intros Hadd. apply IH in Hadd. apply ensure_edge_length in E1.
  apply mark_last_length in E2. simpl. lia.
Qed.

Lemma add_loop_no_alloc k : ∀ cur h v h' l,
  walk h cur k = Some l → add_loop cur k v h = Some h' →
  length h' = length h.
Proof.
  induction k as [|c k IH]; intros cur h v h' l Hw.
  { by intros [= <-]. }
  apply walk_cons in Hw as (next & (n & Hn & He) & Hw).
  rewrite add_loop_cons. unfold ensure_edge. rewrite Hn. simpl.
  rewrite He, Hn. simpl. rewrite He. simpl.
  destruct (mark_last next k v h) as [h2|] eqn:E2; [|done]. simpl.
  intros Hadd. apply (IH _ _ _ _ l) in Hadd.
  - apply mark_last_length in E2. lia.
  - unfold mark_last in E2. destruct k.
    + destruct (h !! next) eqn:Hnext; [|done]. simpl in E2.
      injection E2 as <-. by rewrite set_leaf_walk.
    + by injection E2 as <-.
Qed.

End growth.

(** X4: [add] allocates at most one node per character of the key, and
    adding a key that is already there (with whatever value) allocates
    none. *)
Theorem add_allocates_at_most_key_length (σ : Store) (t : nat)
    (k v v' : list ascii) :
  wf_store σ → t < length (tries σ) →
  ∃ σ1 σ2,
    Trie_add t k v σ = Some σ1 ∧
    length (heap σ) ≤ length (heap σ1) ≤ length (heap σ) + length k ∧
    Trie_add t k v' σ1 = Some σ2 ∧
    length (heap σ2) = length (heap σ1).
Proof.
  intros Hwf Ht. destruct (proj2 Hwf t Ht) as (r & Hr & _).
  destruct (Trie_add_spec σ t r k v Hwf Hr)
    as (σ1 & Hadd1 & Hwf1 & Htr1 & Hpr1 & Hobs1).
  assert (get_root t σ1 = Some r) as Hr1.
  { unfold get_root in *. by rewrite Htr1, Hpr1. }
  destruct (Trie_add_spec σ1 t r k v' Hwf1 Hr1)
    as (σ2 & Hadd2 & _ & _ & _ & _).
  exists σ1, σ2. split; [done|].
  assert (add_loop r k v (heap σ) = Some (heap σ1)) as E1.
  { unfold Trie_add in Hadd1. rewrite Hr in Hadd1.
    destruct (add_loop r k v (heap σ)); [|done].
    simpl in Hadd1. by injection Hadd1 as <-. }
  assert (add_loop r k v' (heap σ1) = Some (heap σ2)) as E2.
  { unfold Trie_add in Hadd2. rewrite Hr1 in Hadd2.
    destruct (add_loop r k v' (heap σ1)); [|done].
    simpl in Hadd2. by injection Hadd2 as <-. }
  split; [by eapply add_loop_length|]. split; [done|].
  assert (is_Some (walk (heap σ1) r k)) as [l Hl].
  { destruct k as [|c k]; [by eexists|].
    specialize (Hobs1 (c :: k)). rewrite add_spec_key in Hobs1 by done.
    unfold obs in Hobs1.
    destruct (walk (heap σ1) r (c :: k)); [by eexists|done]. }
  by eapply add_loop_no_alloc.
Qed.

Lemma add_allocates_at_most_key_length_witness :
  ∃ σ1 σ2,
    Trie_add 0 (lit "brb") (lit "be right back") (new_Trie empty_store).2
      = Some σ1 ∧
    length (heap (new_Trie empty_store).2) ≤ length (heap σ1)
      ≤ length (heap (new_Trie empty_store).2) + length (lit "brb") ∧
    Trie_add 0 (lit "brb") (lit "bathroom break") σ1 = Some σ2 ∧
    length (heap σ2) = length (heap σ1).
Proof.
  apply (add_allocates_at_most_key_length (new_Trie empty_store).2 0).
  - apply wf_store_first_trie.
  - simpl. lia.
Defined.

Section safety.
Implicit Types (h : list TrieNode) (element : Element) (c char : ascii).

Lemma traverse_total h l c :
  wf_heap h → Forall node_ok h → l < length h →
  ∃ res l', traverse c (mkTraverser (Some l)) h
              = Some (res, mkTraverser (Some l')) ∧
            l' < length h ∧
            (res_isLeaf res = Some true → is_Some (res_data res)).
Proof.
  intros Hwf Hok Hl. destruct (lookup_lt_is_Some_2 _ _ Hl) as [n Hn].
  unfold traverse. simpl. rewrite Hn. simpl.
  destruct (edges n !! c) as [l'|] eqn:He.
  - assert (edge_of h l c l') as Hedge by (by exists n).
    apply (wf_edge_lt _ Hwf) in Hedge.
    destruct (lookup_lt_is_Some_2 h l') as [n' Hn']; [lia|].
    rewrite Hn'. simpl. eexists _, l'. split; [done|]. split; [lia|].
    simpl. intros [= Hleaf].
    by apply (Forall_lookup_1 _ _ _ _ Hok Hn').
  - eexists _, l. by split_and!.
Qed.

Lemma loop_body_total h cp pos l element :
  wf_heap h → Forall node_ok h → l < length h →
  pos < length (value element) →
  ∃ ctl l' element',
    loop_body h cp pos (mkTraverser (Some l)) element
      = Some (ctl, mkTraverser (Some l'), element') ∧
    l' < length h ∧ pos ≤ length (value element') ∧
    tagName element' = tagName element.
Proof.
  intros Hwf Hok Hl Hpos.
  destruct (lookup_lt_is_Some_2 _ _ Hpos) as [char Hchar].
  destruct (traverse_total h l (char_toLowerCase char) Hwf Hok Hl)
    as (res & l' & Htr & Hl' & Hdata).
  unfold loop_body. rewrite Hchar. simpl. rewrite Htr. simpl.
  destruct (couldTraverse res); simpl.
  2: { eexists _, _, _. split; [done|]. split_and!; [done|lia|done]. }
  case_bool_decide as Hleaf.
  2: { eexists _, _, _. split; [done|]. split_and!; [done|lia|done]. }
  destruct (at_word_boundary element pos).
  2: { eexists _, _, _. split; [done|]. split_and!; [done|lia|done]. }
  destruct (Hdata Hleaf) as [stored Hstored]. rewrite Hstored. simpl.
  eexists _, _, _. split; [done|]. simpl. split_and!; [done| |done].
  rewrite length_app, length_take. lia.
Qed.

Lemma processInput_loop_total h cp n : ∀ l element,
  wf_heap h → Forall node_ok h → l < length h →
  n ≤ length (value element) →
  ∃ element', processInput_loop h cp n (mkTraverser (Some l)) element
                = Some element' ∧
              tagName element' = tagName element.
Proof.
  induction n as [|pos IH]; intros l element Hwf Hok Hl Hn.
  { by exists element. }
  destruct (loop_body_total h cp pos l element Hwf Hok Hl)
    as (ctl & l' & element' & Hbody & Hl' & Hpos & Htag); [lia|].
  simpl. rewrite Hbody. simpl. destruct ctl; [by exists element'|].
  destruct (IH l' element' Hwf Hok Hl' Hpos) as (element'' & -> & Htag').
  exists element''. split; [done|congruence].
Qed.

End safety.

(** X5: on a page whose store is well formed and whose leaves all carry
    data, [processInput] raises no [TypeError] as long as the selection
    start lies within the text of the focused element; it changes nothing
    but that element, whose tag name it keeps. *)
Theorem processInput_never_throws (p : Page) :
  good_page p →
  (∀ element, activeElement p = Some element →
              selectionStart element ≤ length (value element)) →
  ∃ p', processInput p = Some p' ∧
        store p' = store p ∧ trie p' = trie p ∧ console p' = console p ∧
        (tagName <$> activeElement p') = (tagName <$> activeElement p).
Proof.
  intros [[Hwf Hok] Ht] Hsel. unfold processInput.
  destruct (activeElement p) as [element|] eqn:Hact.
  2: { exists p. by rewrite Hact. }
  destruct (isEditableElement element); simpl.
  2: { exists p. by rewrite Hact. }
  destruct (proj2 Hwf _ Ht) as (r & Hr & Hlt).
  unfold new_TrieTraverser. rewrite Hr.
  destruct (processInput_loop_total (heap (store p)) (selectionStart element)
              (selectionStart element) r element (proj1 Hwf) Hok Hlt)
    as (element' & -> & Htag); [by apply Hsel|].
  simpl. eexists. split; [done|]. simpl. by rewrite Htag.
Qed.

Section scan.
Implicit Types (h : list TrieNode) (element : Element) (c char : ascii)
  (s w pre post : list ascii).


Lemma normalize_nil : normalize [] = [].
Proof. done. Qed.






End scan.


Section expansion.
Variables (h : list TrieNode) (r : nat) (tag pre post v w : list ascii)
  (c0 : ascii) (w' : list ascii) (sel_end : nat).
Hypothesis Hwf : wf_heap h.
Hypothesis Hr : r < length h.
Hypothesis Hw0 : w = c0 :: w'.
Hypothesis Halnum : forallb is_alnum w = true.
Hypothesis Hstored : obs h r (normalize w) = Some (true, Some v).
Hypothesis Hstart :
  pre = [] ∨
  ∃ pre' c, pre = pre' ++ [c] ∧ is_alnum c = false ∧
            obs h r (normalize w ++ [char_toLowerCase c]) = None.

Let cp := length (pre ++ w).
Let element := mkElement tag (pre ++ w ++ post) cp sel_end.
Let replacement := if is_upper c0 then capitalize v else v.





End expansion.


Section objects.
Implicit Types (o : list (list ascii * list ascii)) (k key v : list ascii)
  (rows : list (list ascii * list ascii)).

Lemma obj_get_put_eq k v o : obj_get k (obj_put k v o) = Some v.
Proof.
  induction o as [|[k' w] o IH]; simpl.
  - by rewrite decide_True.
  - destruct (decide (k' = k)) as [->|Hk]; simpl.
    + by rewrite decide_True.
    + by rewrite decide_False.
Qed.

Lemma obj_get_put_ne k k' v o :
  k' ≠ k → obj_get k' (obj_put k v o) = obj_get k' o.
Proof.
  intros Hne. induction o as [|[k0 w] o IH]; simpl.
  - by rewrite decide_False.
  - destruct (decide (k0 = k)) as [->|Hk]; simpl.
    + by rewrite !decide_False.
    + destruct (decide (k0 = k')); [done|apply IH].
Qed.

Lemma obj_put_keys k v o :
  (obj_put k v o).*1 = if decide (k ∈ o.*1) then o.*1 else o.*1 ++ [k].
Proof.
  induction o as [|[k0 w] o IH].
  - case_decide as Hin; [by apply elem_of_nil in Hin|done].
  - csimpl. destruct (decide (k0 = k)) as [->|Hne]; csimpl.
    + rewrite decide_True by (by left). done.
    + rewrite IH. destruct (decide (k ∈ o.*1)) as [Hin|Hin].
      * rewrite decide_True by (by right). done.
      * rewrite decide_False; [done|].
        intros [?|?]%elem_of_cons; [by subst|done].
Qed.

Lemma obj_put_NoDup k v o : NoDup o.*1 → NoDup (obj_put k v o).*1.
Proof.
  intros Hnd. rewrite obj_put_keys. case_decide as Hin; [done|].
  apply NoDup_app. split_and!; [done| |apply NoDup_singleton].
  intros x Hx ->%list_elem_of_singleton. done.
Qed.

Lemma obj_set_NoDup k v o : NoDup o.*1 → NoDup (obj_set k v o).*1.
Proof. intros Hnd. unfold obj_set. case_decide; [done|by apply obj_put_NoDup]. Qed.

Lemma obj_get_is_Some k o : k ∈ o.*1 ↔ is_Some (obj_get k o).
Proof.
  induction o as [|[k0 w] o IH]; simpl.
  - split; [by intros ?%elem_of_nil|by intros [? ?]].
  - destruct (decide (k0 = k)) as [->|Hk].
    + split; [by eexists|by left].
    + rewrite <-IH. split; [intros [?|?]%elem_of_cons; [by subst|done]|by right].
Qed.

Lemma parse_pairs_fold_aux cells :
  (∀ o, parse_pairs cells o
        = foldl (λ o' kv, obj_set kv.1 kv.2 o') o (pairs_of cells)) ∧
  (∀ x o, parse_pairs (x :: cells) o
          = foldl (λ o' kv, obj_set kv.1 kv.2 o') o (pairs_of (x :: cells))).
Proof.
  induction cells as [|a cells [IH1 IH2]]; [done|].
  split; [apply IH2|]. intros x o. simpl. apply IH1.
Qed.

Lemma parse_pairs_fold cells o :
  parse_pairs cells o
  = foldl (λ o' kv, obj_set kv.1 kv.2 o') o (pairs_of cells).
Proof. apply parse_pairs_fold_aux. Qed.

Lemma fold_set_NoDup rows : ∀ o,
  NoDup o.*1 → NoDup (foldl (λ o' kv, obj_set kv.1 kv.2 o') o rows).*1.
Proof.
  induction rows as [|[k v] rows IH]; intros o Hnd; [done|].
  simpl. by apply IH, obj_set_NoDup.
Qed.

Lemma fold_set_other rows : ∀ o k,
  k ∉ rows.*1 ∨ k = lit "__proto__" →
  obj_get k (foldl (λ o' kv, obj_set kv.1 kv.2 o') o rows) = obj_get k o.
Proof.
  induction rows as [|[k0 v0] rows IH]; intros o k Hk; [done|].
  simpl. rewrite IH.
  - unfold obj_set. case_decide as Hp; [done|].
    apply obj_get_put_ne. destruct Hk as [Hk | ->]; [|done].
    simpl in Hk. apply not_elem_of_cons in Hk as [? _]. done.
  - destruct Hk as [Hk|?]; [|by right]. left. simpl in Hk.
    by apply not_elem_of_cons in Hk as [_ ?].
Qed.

(** For a key other than [__proto__], the row written last counts. *)
Lemma fold_set_last rows1 k v rows2 o :
  k ≠ lit "__proto__" → k ∉ rows2.*1 →
  obj_get k (foldl (λ o' kv, obj_set kv.1 kv.2 o') o
               (rows1 ++ (k, v) :: rows2)) = Some v.
Proof.
  intros Hp Hlater. rewrite foldl_app. simpl.
  rewrite fold_set_other by (by left).
  unfold obj_set. rewrite decide_False by done. apply obj_get_put_eq.
Qed.

Lemma insert_index_perm i key (l : list (N * list ascii)) :
  insert_index i key l ≡ₚ (i, key) :: l.
Proof.
  induction l as [|[j k] l IH]; simpl; [done|].
  destruct (i <? j)%N; [done|]. rewrite IH. apply Permutation_swap.
Qed.

(** [for ... in] visits every key of the object exactly once. *)
Lemma for_in_keys_perm o : for_in_keys o ≡ₚ o.*1.
Proof.
  unfold for_in_keys. induction o as [|[k v] o IH]; [done|]. csimpl.
  destruct (array_index k) as [i|] eqn:Hi.
  - rewrite filter_cons_False by congruence. rewrite insert_index_perm.
    csimpl. by rewrite IH.
  - rewrite filter_cons_True by done.
    rewrite <-Permutation_middle. by rewrite IH.
Qed.

End objects.

(** X8: for a payload of at least four cells in even number, [parseData]
    logs nothing and returns a mapping with distinct keys in which every
    key other than [__proto__] carries the value of the last row that has
    it; nothing else is in the mapping. *)
Theorem parseData_last_row_wins (entry log : list (list ascii)) :
  4 ≤ length entry → length entry mod 2 = 0 →
  (parseData entry log).2 = log ∧
  NoDup (parseData entry log).1.*1 ∧
  ∀ k v,
    obj_get k (parseData entry log).1 = Some v ↔
    k ≠ lit "__proto__" ∧
    ∃ rows1 rows2, pairs_of (drop 2 entry) = rows1 ++ (k, v) :: rows2 ∧
                   (k ∉ rows2.*1).
Proof.
  intros H4 H2. unfold parseData.
  replace (length entry <? 4) with false by (symmetry; apply Nat.ltb_ge; lia).
  replace (length entry mod 2 =? 0) with true
    by (symmetry; by apply Nat.eqb_eq).
  cbn [orb negb fst snd]. rewrite parse_pairs_fold.
  split; [done|]. split; [apply fold_set_NoDup; constructor|].
  intros k v. split.
  - intros Hget.
    destruct (decide (k = lit "__proto__")) as [Hp|Hp].
    { rewrite fold_set_other in Hget by (by right). done. }
    destruct (decide (k ∈ (pairs_of (drop 2 entry)).*1)) as [Hin|Hin].
    2: { rewrite fold_set_other in Hget by (by left). done. }
    destruct (last_occurrence _ _ Hin) as (rows1 & v' & rows2 & Hrows & Hnot).
    rewrite Hrows, fold_set_last in Hget by done. injection Hget as ->.
    split; [done|]. by exists rows1, rows2.
  - intros (Hp & rows1 & rows2 & -> & Hnot). by apply fold_set_last.
Qed.

Lemma parseData_last_row_wins_witness :
  let entry := sheet [("brb", "bathroom break"); ("omw", "on my way");
                      ("brb", "be right back")] in
  (parseData entry []).2 = [] ∧
  NoDup (parseData entry []).1.*1 ∧
  ∀ k v,
    obj_get k (parseData entry []).1 = Some v ↔
    k ≠ lit "__proto__" ∧
    ∃ rows1 rows2, pairs_of (drop 2 entry) = rows1 ++ (k, v) :: rows2 ∧
                   (k ∉ rows2.*1).
Proof.
  apply (parseData_last_row_wins
           (sheet [("brb", "bathroom break"); ("omw", "on my way");
                   ("brb", "be right back")]) []).
  - vm_compute. lia.
  - reflexivity.
Defined.

Section loading.
Implicit Types (σ : Store) (p : Page) (o kvs : list (list ascii * list ascii))
  (k key v : list ascii) (keys : list (list ascii)).


Lemma add_all_norm t keys o : ∀ σ,
  (∀ key, key ∈ keys → is_Some (obj_get key o)) →
  add_all t keys o σ = Trie_add_all t (norm_pairs keys o) σ.
Proof.
  induction keys as [|key keys IH]; intros σ Hget; [done|].
  destruct (Hget key) as [d Hd]; [by left|].
  simpl. rewrite Hd. simpl. fold (normalize key).
  destruct (Trie_add t (normalize key) d σ) as [σ'|]; [|done]. simpl.
  apply IH. intros key' Hin. apply Hget. by right.
Qed.

Lemma good_store_add_all t kvs : ∀ σ,
  good_store σ → t < length (tries σ) →
  ∃ σ', Trie_add_all t kvs σ = Some σ' ∧ good_store σ' ∧
        tries σ' = tries σ ∧ proto_root σ' = proto_root σ.
Proof.
  induction kvs as [|[k v] kvs IH]; intros σ Hgood Ht.
  { by exists σ. }
  destruct (good_store_add σ t k v Hgood Ht) as (σ1 & Hadd & Hgood1 & Htr & Hpr).
  destruct (IH σ1 Hgood1) as (σ' & Hall & Hgood' & Htr' & Hpr').
  { by rewrite Htr. }
  exists σ'. simpl. rewrite Hadd. simpl. split; [done|].
  split_and!; congruence.
Qed.

(** What [handleDataResponse] leaves behind: the page stays good, and
    below the root of the global trie exactly the [add] calls of the new
    mapping are observable. *)
Lemma handleDataResponse_obs p entry :
  good_page p →
  let o := (parseData entry (console p)).1 in
  ∃ p' r, handleDataResponse entry p = Some p' ∧ good_page p' ∧
    trie p' = trie p ∧ activeElement p' = activeElement p ∧
    console p' = (parseData entry (console p)).2 ∧
    get_root (trie p') (store p') = Some r ∧
    ∀ path, obs (heap (store p')) r path
            = adds_spec (norm_pairs (for_in_keys o) o) empty_obs path.
Proof.
  intros [Hgood Ht] o. unfold handleDataResponse. subst o.
  destruct (parseData entry (console p)) as [o log]. simpl.
  pose proof (good_store_clear (store p) (trie p) Hgood) as Hgood1.
  pose proof (get_root_clear (store p) (trie p) Ht) as Hr1.
  assert (trie p < length (tries (Trie_clear (trie p) (store p)))) as Ht1.
  { simpl. by rewrite length_insert. }
  rewrite add_all_norm.
  2: { intros key Hin. apply obj_get_is_Some. by rewrite <-for_in_keys_perm. }
  destruct (good_store_add_all (trie p) (norm_pairs (for_in_keys o) o) _
              Hgood1 Ht1) as (σ2 & Hall & Hgood2 & Htr & Hpr).
  destruct (Trie_add_all_spec (norm_pairs (for_in_keys o) o) _ (trie p) _
              (proj1 Hgood1) Hr1) as (σ2' & Hall' & _ & _ & _ & Hobs).
  rewrite Hall in Hall'. injection Hall' as <-.
  rewrite Hall. simpl. eexists _, _. split; [done|]. simpl.
  split; [split; [done|simpl; by rewrite Htr]|].
  split_and!; try done.
  - unfold get_root in *. by rewrite Htr, Hpr.
  - intros path. rewrite Hobs. apply adds_spec_ext. intros path'.
    apply obs_fresh. simpl. rewrite lookup_app_r by lia.
    by rewrite Nat.sub_diag.
Qed.

Lemma good_page_initial focused : good_page (initial_page focused).
Proof.
  split; [|simpl; lia]. apply (good_store_new_Trie empty_store).
  apply good_store_empty.
Qed.

Lemma good_page_loaded pairs : good_page (loaded pairs).
Proof.
  unfold loaded.
  destruct (handleDataResponse_obs (initial_page None) (sheet pairs)
              (good_page_initial None)) as (p' & r & -> & Hgood & _).
  done.
Qed.

Lemma good_page_focus element p : good_page p → good_page (focus element p).
Proof. done. Qed.

Lemma toLowerCase_reverse (s : list ascii) :
  toLowerCase (reverse s) = reverse (toLowerCase s).
Proof. unfold toLowerCase. by rewrite fmap_reverse. Qed.




End loading.





Lemma processInput_never_throws_witness :
  let p := focus (input_at (lit "hey brb") 7) (loaded [("brb", "be right back")]) in
  ∃ p', processInput p = Some p' ∧
        store p' = store p ∧ trie p' = trie p ∧ console p' = console p ∧
        (tagName <$> activeElement p') = (tagName <$> activeElement p).
Proof.
  apply (processInput_never_throws
           (focus (input_at (lit "hey brb") 7)
                  (loaded [("brb", "be right back")]))).
  - apply good_page_focus, good_page_loaded.
  - intros element [= <-]. vm_compute. lia.
Defined.



Section end_to_end.
Implicit Types (c : ascii) (s k : list ascii).






End end_to_end.



Section window.
Implicit Types (w : Window) (p : Page) (element target : Element)
  (h : list TrieNode) (e : Event).

Lemma loop_body_selection h cp pos trav element ctl trav' element' :
  loop_body h cp pos trav element = Some (ctl, trav', element') →
  selection_ok element → selection_ok element'.
Proof.
  unfold loop_body, selection_ok. intros Hbody Hsel.
  destruct (value element !! pos) as [char|]; [|done]. simpl in Hbody.
  destruct (traverse _ trav h) as [[res trav1]|]; [|done]. simpl in Hbody.
  repeat case_match; simplify_eq; try done.
  destruct (res_data res) as [stored|]; [|done]. simpl in Hbody.
  injection Hbody as <- <- <-. simpl. rewrite !length_app. lia.
Qed.

Lemma processInput_loop_selection h cp n : ∀ trav element element',
  processInput_loop h cp n trav element = Some element' →
  selection_ok element → selection_ok element'.
Proof.
  induction n as [|pos IH]; intros trav element element' Hloop Hsel.
  { by injection Hloop as <-. }
  simpl in Hloop.
  destruct (loop_body h cp pos trav element) as [[[ctl trav1] element1]|]
    eqn:Hbody; [|done].
  simpl in Hloop. apply loop_body_selection in Hbody; [|done].
  destruct ctl; [by injection Hloop as <-|by eapply IH].
Qed.

(** [processInput] on a good page with a sound selection: it returns, and
    the page is as good as before. *)
Lemma processInput_keeps_page p :
  good_page p →
  (∀ element, activeElement p = Some element → selection_ok element) →
  ∃ p', processInput p = Some p' ∧ good_page p' ∧
    (∀ element, activeElement p' = Some element → selection_ok element).
Proof.
  intros [[Hwf Hok] Ht] Hsel. unfold processInput.
  destruct (activeElement p) as [element|] eqn:Hact.
  2: { exists p. split; [done|]. split; [done|]. by rewrite Hact. }
  destruct (isEditableElement element); simpl.
  2: { exists p. split; [done|]. split; [done|]. by rewrite Hact. }
  destruct (proj2 Hwf _ Ht) as (r & Hr & Hlt).
  unfold new_TrieTraverser. rewrite Hr.
  destruct (processInput_loop_total (heap (store p)) (selectionStart element)
              (selectionStart element) r element (proj1 Hwf) Hok Hlt)
    as (element' & Hloop & _); [by apply Hsel|].
  rewrite Hloop. simpl. eexists. split; [done|]. split; [done|]. simpl.
  intros ? [= <-]. eapply processInput_loop_selection; [done|by apply Hsel].
Qed.

Lemma window_inv_initial focused :
  (∀ element, focused = Some element → selection_ok element) →
  window_inv (initial_window focused).
Proof.
  intros Hsel. split; [apply good_page_initial|].
  split; [done|]. split; [done|]. split; [simpl; lia|by left].
Qed.

Lemma window_inv_main id w : window_inv w → window_inv (main id w).
Proof.
  intros (Hgood & Hsel & Hlis & Hh & Htim). unfold main. simpl.
  destruct (firstRun w); simpl; split_and!; try done.
  by rewrite Hlis.
Qed.

Lemma window_inv_onInput target w : window_inv w → window_inv (onInput target w).
Proof.
  intros (Hgood & Hsel & Hlis & Hh & Htim). unfold onInput.
  destruct (isEditableElement target); simpl; [|by split_and!].
  assert (timers (if processTimeout w =? 0 then w
                  else clearTimeout (processTimeout w) w) = []) as Hclear.
  { destruct (processTimeout w =? 0) eqn:Hz.
    - apply Nat.eqb_eq in Hz. destruct Htim as [?|[_ ?]]; [done|lia].
    - simpl. destruct Htim as [->|[-> _]]; [done|].
      rewrite filter_cons_False by (simpl; tauto). done. }
  destruct (processTimeout w =? 0); simpl in *; rewrite Hclear;
    (split_and!; simpl; [done|done|done|lia|right; split; [done|lia]]).
Qed.

Lemma window_inv_iter_onInput target n w :
  window_inv w → window_inv (Nat.iter n (onInput target) w).
Proof.
  intros Hinv. induction n as [|n IH]; [done|]. simpl.
  by apply window_inv_onInput.
Qed.

Lemma step_total e w :
  window_inv w → edit_ok e → ∃ w', step e w = Some w' ∧ window_inv w'.
Proof.
  intros Hinv Hedit. destruct e as [id|target|handle|i entry|focused]; simpl.
  - eexists. split; [done|]. by apply window_inv_main.
  - eexists. split; [done|]. by apply window_inv_iter_onInput.
  - destruct Hinv as (Hgood & Hsel & Hlis & Hh & Htim).
    case_bool_decide as Hpending; [|by exists w].
    destruct (processInput_keeps_page _ Hgood Hsel) as (p' & -> & Hgood' & Hsel').
    simpl. eexists. split; [done|]. split_and!; try done.
    cbn [timers set_page clearTimeout processTimeout].
    destruct Htim as [->|[-> ?]]; [by left|].
    rewrite filter_cons, filter_nil. case_decide; [by right|by left].
  - destruct Hinv as (Hgood & Hsel & Hlis & Hh & Htim).
    destruct (requests w !! i); [|by exists w].
    destruct (handleDataResponse_obs _ entry Hgood)
      as (p' & r & -> & Hgood' & _ & Hact & _).
    simpl. eexists. split; [done|]. split_and!; try done. simpl.
    by rewrite Hact.
  - destruct Hinv as ((Hgood & Ht) & Hsel & Hlis & Hh & Htim).
    eexists. split; [done|]. split_and!; try done. simpl.
    intros element ->. apply Hedit.
Qed.

Lemma run_events_total es : ∀ w,
  window_inv w → Forall edit_ok es →
  ∃ w', run_events es w = Some w' ∧ window_inv w'.
Proof.
  induction es as [|e es IH]; intros w Hinv Hes; [by exists w|].
  apply Forall_cons in Hes as [He Hes].
  destruct (step_total e w Hinv He) as (w1 & Hstep & Hinv1).
  simpl. rewrite Hstep. simpl. by apply IH.
Qed.

Lemma step_firstRun e w w' :
  step e w = Some w' → firstRun w' = firstRun w || is_activate e.
Proof.
  destruct e as [id|target|handle|i entry|focused]; simpl.
  - intros [= <-]. unfold main. simpl. by destruct (firstRun w).
  - intros [= <-]. rewrite orb_false_r.
    induction (listeners w) as [|n IH]; [done|]. simpl.
    unfold onInput at 1. destruct (isEditableElement target); [|done].
    by destruct (processTimeout _ =? 0).
  - case_bool_decide; [|intros [= <-]; by rewrite orb_false_r].
    destruct (processInput (page w)); [|done]. simpl. intros [= <-].
    by rewrite orb_false_r.
  - destruct (requests w !! i); [|intros [= <-]; by rewrite orb_false_r].
    destruct (handleDataResponse entry (page w)); [|done]. simpl.
    intros [= <-]. by rewrite orb_false_r.
  - intros [= <-]. by rewrite orb_false_r.
Qed.

Lemma run_events_firstRun es : ∀ w w',
  run_events es w = Some w' → firstRun w' = firstRun w || existsb is_activate es.
Proof.
  induction es as [|e es IH]; intros w w'; simpl.
  { intros [= <-]. by rewrite orb_false_r. }
  destruct (step e w) as [w1|] eqn:Hstep; [|done]. simpl.
  intros Hrun. rewrite (IH _ _ Hrun), (step_firstRun _ _ _ Hstep).
  by rewrite orb_assoc.
Qed.

End window.

(** X12: a run of the window in which every response is a readable sheet
    raises no [TypeError].  A [Response] event carries the texts of the
    cells, so the statement is about the responses whose body parses as JSON
    and whose [feed.entry] is an array of cells with a string at
    [content['$t']], of any number and content; a response for which
    [JSON.parse] or a property read of [parseData] throws is not an event
    of the model and nothing is claimed about it.  For every sequence of
    activations, input events, expiring timeouts, such responses and user
    edits (the user leaving the selection within the text), every step
    returns, the page stays good, and [addEventListener] has been called
    exactly once if the script was activated at all and never otherwise. *)
Theorem window_runs_safely (es : list Event) (focused : option Element) :
  (∀ element, focused = Some element → selection_ok element) →
  Forall edit_ok es →
  ∃ w', run_events es (initial_window focused) = Some w' ∧
    good_page (page w') ∧
    (∀ element, activeElement (page w') = Some element → selection_ok element) ∧
    listeners w' = (if existsb is_activate es then 1 else 0).
Proof.
  intros Hfocus Hes.
  destruct (run_events_total es (initial_window focused)
              (window_inv_initial focused Hfocus) Hes)
    as (w' & Hrun & Hgood & Hsel & Hlis & _).
  exists w'. split; [done|]. split; [done|]. split; [done|].
  by rewrite Hlis, (run_events_firstRun _ _ _ Hrun).
Qed.

Lemma window_runs_safely_witness :
  let es := [Activate None;
             Response 0 (sheet [("brb", "be right back")]);
             UserEdit (Some (input_at (lit "brb") 3));
             InputEvent (input_at (lit "brb") 3);
             Activate (Some (lit "sheet2"));
             Expire 1] in
  ∃ w', run_events es (initial_window None) = Some w' ∧
    good_page (page w') ∧
    (∀ element, activeElement (page w') = Some element → selection_ok element) ∧
    listeners w' = (if existsb is_activate es then 1 else 0).
Proof.
  apply (window_runs_safely
           [Activate None;
            Response 0 (sheet [("brb", "be right back")]);
            UserEdit (Some (input_at (lit "brb") 3));
            InputEvent (input_at (lit "brb") 3);
            Activate (Some (lit "sheet2"));
            Expire 1] None).
  - by intros element.
  - repeat constructor; vm_compute; lia.
Defined.

(** X13: at most one expansion attempt is pending.  After any run of the
    window there is at most one pending [processInput] timeout, and if
    there is one it is the one recorded in [processTimeout], set for
    [WAIT_TIME]. *)
Theorem at_most_one_pending_timeout (es : list Event) (focused : option Element) :
  (∀ element, focused = Some element → selection_ok element) →
  Forall edit_ok es →
  ∃ w', run_events es (initial_window focused) = Some w' ∧
    length (timers w') ≤ 1 ∧
    ∀ t, t ∈ timers w' → t = (processTimeout w', WAIT_TIME).
Proof.
  intros Hfocus Hes.
  destruct (run_events_total es (initial_window focused)
              (window_inv_initial focused Hfocus) Hes)
    as (w' & Hrun & _ & _ & _ & _ & Htim).
  exists w'. split; [done|]. destruct Htim as [->|[-> _]].
  - split; [simpl; lia|]. by intros t ?%elem_of_nil.
  - split; [simpl; lia|]. by intros t ->%list_elem_of_singleton.
Qed.

Lemma at_most_one_pending_timeout_witness :
  let es := [Activate None;
             InputEvent (input_at (lit "b") 1);
             InputEvent (input_at (lit "br") 2);
             InputEvent (input_at (lit "brb") 3)] in
  ∃ w', run_events es (initial_window None) = Some w' ∧
    length (timers w') ≤ 1 ∧
    ∀ t, t ∈ timers w' → t = (processTimeout w', WAIT_TIME).
Proof.
  apply (at_most_one_pending_timeout
           [Activate None;
            InputEvent (input_at (lit "b") 1);
            InputEvent (input_at (lit "br") 2);
            InputEvent (input_at (lit "brb") 3)] None).
  - by intros element.
  - by repeat constructor.
Defined.

(** X14: debounce.  Once the listener is registered, of two input events
    on editable elements the second cancels the timeout of the first and
    sets a new one: afterwards exactly the second timeout is pending, and
    the first, should its handle expire, runs nothing.  An input event on
    an element that is not editable changes nothing. *)
Theorem second_input_cancels_first (w : Window) (t1 t2 : Element) :
  window_inv w → listeners w = 1 →
  isEditableElement t1 = true → isEditableElement t2 = true →
  ∃ w1 w2,
    step (InputEvent t1) w = Some w1 ∧ step (InputEvent t2) w1 = Some w2 ∧
    timers w1 = [(processTimeout w1, WAIT_TIME)] ∧
    timers w2 = [(processTimeout w2, WAIT_TIME)] ∧
    processTimeout w2 ≠ processTimeout w1 ∧
    step (Expire (processTimeout w1)) w2 = Some w2 ∧
    ∀ t3, isEditableElement t3 = false → step (InputEvent t3) w2 = Some w2.
Proof.
  intros Hinv Hlis Ht1 Ht2.
  assert (∀ w0 t, window_inv w0 → isEditableElement t = true →
            timers (onInput t w0) = [(next_handle w0, WAIT_TIME)] ∧
            processTimeout (onInput t w0) = next_handle w0 ∧
            next_handle (onInput t w0) = S (next_handle w0) ∧
            listeners (onInput t w0) = listeners w0) as Hstep.
  { intros w0 t (_ & _ & _ & Hh & Htim) Ht. unfold onInput. rewrite Ht. simpl.
    destruct (processTimeout w0 =? 0) eqn:Hz; simpl.
    - apply Nat.eqb_eq in Hz.
      destruct Htim as [->|[_ ?]]; [done|lia].
    - destruct Htim as [->|[-> _]]; [done|].
      rewrite filter_cons_False by (simpl; tauto). done. }
  simpl. rewrite Hlis. simpl.
  destruct (Hstep w t1 Hinv Ht1) as (Htim1 & Hpt1 & Hnext1 & Hlis1).
  pose proof (window_inv_onInput t1 w Hinv) as Hinv1.
  destruct (Hstep (onInput t1 w) t2 Hinv1 Ht2) as (Htim2 & Hpt2 & Hnext2 & Hlis2).
  exists (onInput t1 w), (onInput t2 (onInput t1 w)).
  split; [done|]. rewrite Hlis1, Hlis. simpl. split; [done|].
  split; [by rewrite Htim1, Hpt1|]. split; [by rewrite Htim2, Hpt2|].
  split; [rewrite Hpt2, Hpt1, Hnext1; lia|]. split.
  - rewrite bool_decide_eq_false_2; [done|].
    rewrite Htim2, Hpt1, Hnext1. simpl.
    intros ?%list_elem_of_singleton. lia.
  - intros t3 Ht3. rewrite Hlis2, Hlis1, Hlis. simpl.
    unfold onInput at 1. by rewrite Ht3.
Qed.

Lemma second_input_cancels_first_witness :
  let w := main None (initial_window None) in
  ∃ w1 w2,
    step (InputEvent (input_at (lit "br") 2)) w = Some w1 ∧
    step (InputEvent (input_at (lit "brb") 3)) w1 = Some w2 ∧
    timers w1 = [(processTimeout w1, WAIT_TIME)] ∧
    timers w2 = [(processTimeout w2, WAIT_TIME)] ∧
    processTimeout w2 ≠ processTimeout w1 ∧
    step (Expire (processTimeout w1)) w2 = Some w2 ∧
    ∀ t3, isEditableElement t3 = false → step (InputEvent t3) w2 = Some w2.
Proof.
  apply (second_input_cancels_first (main None (initial_window None))
           (input_at (lit "br") 2) (input_at (lit "brb") 3)).
  - apply window_inv_main, window_inv_initial. by intros element.
  - reflexivity.
  - reflexivity.
  - reflexivity.
Defined.

(** X15: which sheet is requested.  The URL determines the sheet id, so
    activations with different ids request different URLs; an activation
    without id, or with the empty id, requests the default sheet; and every
    activation sends exactly one request. *)
Theorem activation_requests_one_sheet :
  (∀ a b, getDataUrl a = getDataUrl b → a = b) ∧
  (∀ w, requests (main None w) = requests w ++ [getDataUrl DEFAULT_ID]) ∧
  (∀ w, requests (main (Some []) w) = requests w ++ [getDataUrl DEFAULT_ID]) ∧
  (∀ w c s, requests (main (Some (c :: s)) w)
            = requests w ++ [getDataUrl (c :: s)]).
Proof.
  split_and!.
  - unfold getDataUrl. intros a b Heq. apply app_inv_head in Heq.
    by apply app_inv_tail in Heq.
  - intros w. unfold main. simpl. by destruct (firstRun w).
  - intros w. unfold main. simpl. by destruct (firstRun w).
  - intros w c s. unfold main. simpl. by destruct (firstRun w).
Qed.

Lemma activation_requests_one_sheet_witness : lit "sheet" = lit "sheet".
Proof.
  apply (proj1 activation_requests_one_sheet (lit "sheet") (lit "sheet")).
  reflexivity.
Defined.

Section characters.
Implicit Types (c : ascii) (s k : list ascii).

Lemma char_toLowerCase_idemp c :
  char_toLowerCase (char_toLowerCase c) = char_toLowerCase c.
Proof. by destruct c as [[] [] [] [] [] [] [] []]. Qed.

End characters.

(** X17: the key stored for an abbreviation, read backwards, is the
    abbreviation in lower case: normalising (reversing and lower-casing)
    twice gives the lower-cased key, and normalising keeps the length. *)
Theorem normalize_twice (k : list ascii) :
  toLowerCase (reverseString (toLowerCase (reverseString k))) = toLowerCase k ∧
  length (toLowerCase (reverseString k)) = length k.
Proof.
  unfold reverseString. split.
  - rewrite !toLowerCase_reverse, reverse_involutive.
    unfold toLowerCase. rewrite <-list_fmap_compose.
    apply list_fmap_ext. intros i c _. apply char_toLowerCase_idemp.
  - unfold toLowerCase. by rewrite length_fmap, length_reverse.
Qed.

(** X18: [clear] empties the instance it is called on and no other: every
    run of a fresh traverser over another instance yields what it yielded
    before, whether that instance has a root of its own or reads the
    prototype's, while over the cleared instance no call succeeds. *)
Theorem clear_empties_only_its_instance (σ : Store) (t t' : nat)
    (cs : list ascii) :
  wf_store σ → t < length (tries σ) → t' < length (tries σ) → t' ≠ t →
  traverse_all cs (new_TrieTraverser t' (Trie_clear t σ))
    (heap (Trie_clear t σ))
  = traverse_all cs (new_TrieTraverser t' σ) (heap σ) ∧
  traverse_all cs (new_TrieTraverser t (Trie_clear t σ))
    (heap (Trie_clear t σ))
  = Some (replicate (length cs) no_traverse).
Proof.
  intros Hwf Ht Ht' Hne. split.
  - destruct (proj2 Hwf t' Ht') as (r & Hr & Hlt).
    assert (get_root t' (Trie_clear t σ) = Some r) as Hr'.
    { unfold get_root in *. simpl. by rewrite list_lookup_insert_ne. }
    rewrite (traverse_all_root _ _ r cs (wf_store_clear σ t Hwf) Hr').
    rewrite (traverse_all_root _ _ r cs Hwf Hr). f_equal.
    apply results_ext. intros p. simpl. apply obs_alloc; [apply Hwf|done].
  - unfold new_TrieTraverser. rewrite get_root_clear by done.
    apply traverse_all_fresh. simpl. rewrite lookup_app_r by lia.
    by rewrite Nat.sub_diag.
Qed.

Lemma clear_empties_only_its_instance_witness :
  let σ := (new_Trie (loaded [("brb", "be right back")]).(store)).2 in
  traverse_all (lit "brb") (new_TrieTraverser 0 (Trie_clear 1 σ))
    (heap (Trie_clear 1 σ))
  = traverse_all (lit "brb") (new_TrieTraverser 0 σ) (heap σ) ∧
  traverse_all (lit "brb") (new_TrieTraverser 1 (Trie_clear 1 σ))
    (heap (Trie_clear 1 σ))
  = Some (replicate (length (lit "brb")) no_traverse).
Proof.
  apply (clear_empties_only_its_instance
           (new_Trie (loaded [("brb", "be right back")]).(store)).2 1 0
           (lit "brb")).
  - apply wf_store_new_Trie, (good_page_loaded [("brb", "be right back")]).
  - vm_compute. lia.
  - vm_compute. lia.
  - done.
Defined.

(** X19: instances that were never cleared are one trie: a key added
    through one of them is found through any other. *)
Theorem add_is_seen_through_shared_root (σ : Store) (t t' : nat)
    (k v : list ascii) :
  wf_store σ → tries σ !! t = Some None → tries σ !! t' = Some None →
  k ≠ [] →
  ∃ σ' rs,
    Trie_add t k v σ = Some σ' ∧
    traverse_all k (new_TrieTraverser t' σ') (heap σ') = Some rs ∧
    Forall (λ r, couldTraverse r = true) rs ∧
    last rs = Some (found v).
Proof.
  intros Hwf Ht Ht' Hk.
  destruct (proj2 Hwf t (lookup_lt_Some _ _ _ Ht)) as (r & Hr & _).
  assert (get_root t' σ = Some r) as Hr'.
  { unfold get_root in *. by rewrite Ht in Hr; rewrite Ht'. }
  destruct (found_after_add σ t r k v Hwf Hr Hk)
    as (σ' & Hadd & Hwf' & Htr & Hpr & Hobs & Hpre).
  assert (get_root t' σ' = Some r) as Hr''.
  { unfold get_root in *. by rewrite Htr, Hpr. }
  exists σ', (results (obs (heap σ') r) [] k).
  split; [done|]. split; [by apply traverse_all_root|].
  destruct (results_path (obs (heap σ') r) k [] Hpre) as [Hcould Hlast].
  split; [done|]. rewrite Hlast by done. simpl. by rewrite Hobs.
Qed.

Lemma add_is_seen_through_shared_root_witness :
  let σ := (new_Trie (new_Trie empty_store).2).2 in
  ∃ σ' rs,
    Trie_add 0 (lit "brb") (lit "be right back") σ = Some σ' ∧
    traverse_all (lit "brb") (new_TrieTraverser 1 σ') (heap σ') = Some rs ∧
    Forall (λ r, couldTraverse r = true) rs ∧
    last rs = Some (found (lit "be right back")).
Proof.
  apply (add_is_seen_through_shared_root (new_Trie (new_Trie empty_store).2).2
           0 1 (lit "brb") (lit "be right back")).
  - apply wf_store_new_Trie, wf_store_first_trie.
  - reflexivity.
  - reflexivity.
  - done.
Defined.
